(** * Flappy: the per-frame simulation of [bird.js], [pipe.js] and [game.js]

    A shallow embedding of the game's simulation core and the properties
    of it that the design document states.

    Numbers.  JavaScript numbers are IEEE binary64 doubles.  Two
    embeddings are used.

    - The modules [Bird], [Pipe] and [Game] take numbers as exact
      rationals in canonical form ([Qc], so that equality is Leibniz
      equality).  They carry the properties that rounding does not
      decide: flags, counts, the order of events, comparisons with a
      margin, and values that the code assigns rather than accumulates.
      No closed form of a position after many frames is stated on them.
    - The module [Bird64] is [bird.js] on binary64 doubles themselves
      (the primitive floats of the kernel), with the additions and the
      comparisons rounded as the code rounds them.  It carries what
      [update] guarantees about the position, which rounding does decide.

    The counters [frameCount] and [score], which only ever hold small
    non-negative integers, are [Z].

    The canvas context, colours, the DOM elements, the menu overlays and
    rendering are presentation; they are embedded apart from the game. *)

From Stdlib Require Import Floats.
From Stdlib Require Import String DecimalString.
From Stdlib Require Import QArith Qcanon Qround Lqa ZArith List Bool Lia.
Import ListNotations.

Open Scope Qc_scope.

(* ================================================================= *)
(** ** Comparisons on numbers, as booleans *)

(** [a < b] *)
Definition Qcltb (a b : Qc) : bool :=
  match a ?= b with Lt => true | _ => false end.

(** [a > b] *)
Definition Qcgtb (a b : Qc) : bool := Qcltb b a.

(** [a <= b] *)
Definition Qcleb (a b : Qc) : bool := negb (Qcltb b a).

(** [a >= b] *)
Definition Qcgeb (a b : Qc) : bool := negb (Qcltb a b).

(** [Math.floor] *)
Definition floor (q : Qc) : Qc := Q2Qc (inject_Z (Qfloor q)).

(** A non-negative integer (an [unsigned long] of the DOM) as a number. *)
Definition of_N (n : N) : Qc := Q2Qc (inject_Z (Z.of_N n)).

(* ================================================================= *)
(** ** Bounding boxes: the objects [{x, y, width, height}] *)

Module Rect.

Record t : Type := mk {
  x : Qc;
  y : Qc;
  width : Qc;
  height : Qc
}.

End Rect.

(* ================================================================= *)
(** ** bird.js *)

Module Bird.

Record t : Type := mk {
  canvasWidth : Qc;
  canvasHeight : Qc;
  width : Qc;
  height : Qc;
  x : Qc;
  y : Qc;
  velocity : Qc;
  gravity : Qc;
  jumpStrength : Qc
}.

(** [this.y = v] *)
Definition set_y (v : Qc) (b : t) : t :=
  mk (canvasWidth b) (canvasHeight b) (width b) (height b) (x b)
     v (velocity b) (gravity b) (jumpStrength b).

(** [this.velocity = v] *)
Definition set_velocity (v : Qc) (b : t) : t :=
  mk (canvasWidth b) (canvasHeight b) (width b) (height b) (x b)
     (y b) v (gravity b) (jumpStrength b).

(** [constructor(ctx, canvasWidth, canvasHeight)] *)
Definition constructor (canvasWidth canvasHeight : Qc) : t :=
  {| canvasWidth := canvasWidth;
     canvasHeight := canvasHeight;
     width := Q2Qc 30;
     height := Q2Qc 20;
     x := Q2Qc 50;
     y := canvasHeight / Q2Qc 2;
     velocity := 0;
     gravity := Q2Qc 0.2;
     jumpStrength := Q2Qc (-7) |}.

(** The two statements of [update] that integrate the motion.  The
    sums are exact here; [Bird64.integrate] has them rounded. *)
Definition integrate (b : t) : t :=
  let b := set_velocity (velocity b + gravity b) b in
  set_y (y b + velocity b) b.

(** The guard of the first [if] of [update], on the integrated bird.
    The sum is exact here; [Bird64.belowCanvas] has it rounded. *)
Definition belowCanvas (b : t) : bool :=
  Qcgtb (y b + height b) (canvasHeight b).

(** The guard of the second [if] of [update]. *)
Definition aboveCanvas (b : t) : bool :=
  Qcltb (y b) 0.

(** The first [if] of [update]. *)
Definition clampFloor (b : t) : t :=
  if belowCanvas b
  then set_velocity 0 (set_y (canvasHeight b - height b) b)
  else b.

(** The second [if] of [update]. *)
Definition clampCeiling (b : t) : t :=
  if aboveCanvas b
  then set_velocity 0 (set_y 0 b)
  else b.

(** [update()] *)
Definition update (b : t) : t :=
  clampCeiling (clampFloor (integrate b)).

(** Whether one of the two [if]s of [update] is taken in the call
    [update()] on [b]. *)
Definition clamps (b : t) : bool :=
  belowCanvas (integrate b) || aboveCanvas (clampFloor (integrate b)).

(** [flap()] *)
Definition flap (b : t) : t :=
  set_velocity (jumpStrength b) b.

(** [reset()] *)
Definition reset (b : t) : t :=
  set_velocity 0 (set_y (canvasHeight b / Q2Qc 2) b).

(** [getBounds()] *)
Definition getBounds (b : t) : Rect.t :=
  {| Rect.x := x b; Rect.y := y b;
     Rect.width := width b; Rect.height := height b |}.

End Bird.

(* ================================================================= *)
(** ** bird.js on doubles *)

Module Bird64.

Local Open Scope float_scope.

Record t : Type := mk {
  canvasWidth : float;
  canvasHeight : float;
  width : float;
  height : float;
  x : float;
  y : float;
  velocity : float;
  gravity : float;
  jumpStrength : float
}.

(** [this.y = v] *)
Definition set_y (v : float) (b : t) : t :=
  mk (canvasWidth b) (canvasHeight b) (width b) (height b) (x b)
     v (velocity b) (gravity b) (jumpStrength b).

(** [this.velocity = v] *)
Definition set_velocity (v : float) (b : t) : t :=
  mk (canvasWidth b) (canvasHeight b) (width b) (height b) (x b)
     (y b) v (gravity b) (jumpStrength b).

(** [constructor(ctx, canvasWidth, canvasHeight)]; the literal [0.2] is
    the double nearest to it, [0x1.999999999999ap-3]. *)
Definition constructor (canvasWidth canvasHeight : float) : t :=
  {| canvasWidth := canvasWidth;
     canvasHeight := canvasHeight;
     width := 30;
     height := 20;
     x := 50;
     y := canvasHeight / 2;
     velocity := 0;
     gravity := 0x1.999999999999ap-3;
     jumpStrength := -7 |}.

(** The two statements of [update] that integrate the motion. *)
Definition integrate (b : t) : t :=
  let b := set_velocity (velocity b + gravity b) b in
  set_y (y b + velocity b) b.

(** [this.y + this.height > this.canvasHeight] *)
Definition belowCanvas (b : t) : bool :=
  canvasHeight b <? y b + height b.

(** [this.y < 0] *)
Definition aboveCanvas (b : t) : bool :=
  y b <? 0.

(** The first [if] of [update]. *)
Definition clampFloor (b : t) : t :=
  if belowCanvas b
  then set_velocity 0 (set_y (canvasHeight b - height b) b)
  else b.

(** The second [if] of [update]. *)
Definition clampCeiling (b : t) : t :=
  if aboveCanvas b
  then set_velocity 0 (set_y 0 b)
  else b.

(** [update()] *)
Definition update (b : t) : t :=
  clampCeiling (clampFloor (integrate b)).

(** Whether one of the two [if]s of [update] is taken in the call
    [update()] on [b]. *)
Definition clamps (b : t) : bool :=
  belowCanvas (integrate b) || aboveCanvas (clampFloor (integrate b)).

(** [flap()] *)
Definition flap (b : t) : t :=
  set_velocity (jumpStrength b) b.

(** [reset()] *)
Definition reset (b : t) : t :=
  set_velocity 0 (set_y (canvasHeight b / 2) b).

(** The ground/ceiling test that [checkCollisions] of [game.js] makes on
    the bird: [bird.y + bird.height >= canvasHeight || bird.y <= 0]. *)
Definition hitsGroundOrCeiling (b : t) : bool :=
  (canvasHeight b <=? y b + height b) || (y b <=? 0).

(** The bird through [n] frames of a game, numbered from [frame] on,
    with a flap before each frame listed in [flaps]. *)
Fixpoint play (flaps : list nat) (frame n : nat) (b : t) : t :=
  match n with
  | O => b
  | S n =>
      let b := if existsb (Nat.eqb frame) flaps then flap b else b in
      play flaps (S frame) n (update b)
  end.

(** The calls that the game makes on its bird: [update()] in a frame,
    [flap()] on input, [reset()] in [startGame]. *)
Inductive call : Type := Update | Flap | Reset.

Definition perform (c : call) (b : t) : t :=
  match c with
  | Update => update b
  | Flap => flap b
  | Reset => reset b
  end.

(** The bird after the calls [cs], made in order. *)
Fixpoint run (cs : list call) (b : t) : t :=
  match cs with
  | [] => b
  | c :: cs => run cs (perform c b)
  end.

End Bird64.

(* ================================================================= *)
(** ** pipe.js *)

Module Pipe.

(** The [settings] argument of the constructor. *)
Record settings : Type := mkSettings {
  pipeSpeed : Qc;
  pipeVerticalGap : Qc
}.

(** The default value of the [settings] argument. *)
Definition defaultSettings : settings :=
  {| pipeSpeed := Q2Qc 1.45; pipeVerticalGap := Q2Qc 250 |}.

Record t : Type := mk {
  canvasWidth : Qc;
  canvasHeight : Qc;
  width : Qc;
  x : Qc;
  speed : Qc;
  gap : Qc;
  passed : bool;
  topHeight : Qc;
  bottomY : Qc;
  bottomHeight : Qc
}.

(** [this.x = v] *)
Definition set_x (v : Qc) (p : t) : t :=
  mk (canvasWidth p) (canvasHeight p) (width p) v (speed p) (gap p)
     (passed p) (topHeight p) (bottomY p) (bottomHeight p).

(** [this.passed = v] *)
Definition set_passed (v : bool) (p : t) : t :=
  mk (canvasWidth p) (canvasHeight p) (width p) (x p) (speed p) (gap p)
     v (topHeight p) (bottomY p) (bottomHeight p).

(** [constructor(ctx, canvasWidth, canvasHeight, x, settings)];
    [random] is the value that the call of [Math.random()] returns. *)
Definition constructor (canvasWidth canvasHeight x : Qc) (s : settings)
    (random : Qc) : t :=
  let gap := pipeVerticalGap s in
  let topHeight :=
    floor (random * (canvasHeight / Q2Qc 3 - Q2Qc 50)) + Q2Qc 60 in
  let bottomY := topHeight + gap in
  let bottomHeight := canvasHeight - bottomY in
  {| canvasWidth := canvasWidth;
     canvasHeight := canvasHeight;
     width := Q2Qc 72;
     x := x;
     speed := pipeSpeed s;
     gap := gap;
     passed := false;
     topHeight := topHeight;
     bottomY := bottomY;
     bottomHeight := bottomHeight |}.

(** [update()].  The difference is exact here; the code rounds it in
    each frame, so a position after many frames is known from this
    definition up to the rounding only. *)
Definition update (p : t) : t :=
  set_x (x p - speed p) p.

(** [isOffScreen()] *)
Definition isOffScreen (p : t) : bool :=
  Qcltb (x p + width p) 0.

(** [isPassed(birdX)]: the returned boolean and the pipe afterwards. *)
Definition isPassed (birdX : Qc) (p : t) : bool * t :=
  if negb (passed p) && Qcgtb birdX (x p + width p)
  then (true, set_passed true p)
  else (false, p).

(** [getBounds()] *)
Definition getBounds (p : t) : list Rect.t :=
  [ {| Rect.x := x p; Rect.y := 0;
       Rect.width := width p; Rect.height := topHeight p |};
    {| Rect.x := x p; Rect.y := bottomY p;
       Rect.width := width p; Rect.height := bottomHeight p |} ].

(** The calls a pipe receives during its life. *)
Inductive call : Type :=
| Update
| IsPassed (birdX : Qc).

(** A pipe's life: the calls are made in order on the one object; the
    result lists what the [isPassed] calls returned, in order. *)
Fixpoint lifetime (cs : list call) (p : t) : list bool * t :=
  match cs with
  | [] => ([], p)
  | Update :: cs => lifetime cs (update p)
  | IsPassed birdX :: cs =>
      let '(r, p') := isPassed birdX p in
      let '(rs, p'') := lifetime cs p' in
      (r :: rs, p'')
  end.

(** The number of [true] among the results of [isPassed]. *)
Definition hits (rs : list bool) : nat := length (filter (fun r => r) rs).

End Pipe.

(* ================================================================= *)
(** ** game.js *)

Module Game.

Record t : Type := mk {
  canvasWidth : Qc;
  canvasHeight : Qc;
  bird : Bird.t;
  pipes : list Pipe.t;
  pipeGap : Z;
  frameCount : Z;
  score : Z;
  isRunning : bool;
  isGameOver : bool
}.

Definition set_bird (v : Bird.t) (g : t) : t :=
  mk (canvasWidth g) (canvasHeight g) v (pipes g) (pipeGap g)
     (frameCount g) (score g) (isRunning g) (isGameOver g).

Definition set_pipes (v : list Pipe.t) (g : t) : t :=
  mk (canvasWidth g) (canvasHeight g) (bird g) v (pipeGap g)
     (frameCount g) (score g) (isRunning g) (isGameOver g).

Definition set_frameCount (v : Z) (g : t) : t :=
  mk (canvasWidth g) (canvasHeight g) (bird g) (pipes g) (pipeGap g)
     v (score g) (isRunning g) (isGameOver g).

Definition set_score (v : Z) (g : t) : t :=
  mk (canvasWidth g) (canvasHeight g) (bird g) (pipes g) (pipeGap g)
     (frameCount g) v (isRunning g) (isGameOver g).

Definition set_isRunning (v : bool) (g : t) : t :=
  mk (canvasWidth g) (canvasHeight g) (bird g) (pipes g) (pipeGap g)
     (frameCount g) (score g) v (isGameOver g).

Definition set_isGameOver (v : bool) (g : t) : t :=
  mk (canvasWidth g) (canvasHeight g) (bird g) (pipes g) (pipeGap g)
     (frameCount g) (score g) (isRunning g) v.

(** [constructor()]: [width] and [height] are [canvas.width] and
    [canvas.height], which the DOM types as [unsigned long].  The call of
    [gameLoop()] that ends the constructor runs [update()] on a game that
    is not running, which returns at once. *)
Definition constructor (width height : N) : t :=
  {| canvasWidth := of_N width;
     canvasHeight := of_N height;
     bird := Bird.constructor (of_N width) (of_N height);
     pipes := [];
     pipeGap := 300;
     frameCount := 0;
     score := 0;
     isRunning := false;
     isGameOver := false |}.

(** [spawnPipe()]; [random] is what [Math.random()] returns to the
    [Pipe] constructor, which is called without [settings]. *)
Definition spawnPipe (random : Qc) (g : t) : t :=
  let pipeX := canvasWidth g in
  set_pipes
    (pipes g ++
     [Pipe.constructor (canvasWidth g) (canvasHeight g) pipeX
        Pipe.defaultSettings random])
    g.

(** [startGame()] *)
Definition startGame (random : Qc) (g : t) : t :=
  let g := set_bird (Bird.reset (bird g)) g in
  let g := set_pipes [] g in
  let g := set_score 0 g in
  let g := set_isRunning true g in
  let g := set_isGameOver false g in
  let g := set_frameCount 0 g in
  spawnPipe random g.

(** [rectsIntersect(rect1, rect2)] *)
Definition rectsIntersect (rect1 rect2 : Rect.t) : bool :=
  Qcltb (Rect.x rect1) (Rect.x rect2 + Rect.width rect2) &&
  Qcgtb (Rect.x rect1 + Rect.width rect1) (Rect.x rect2) &&
  Qcltb (Rect.y rect1) (Rect.y rect2 + Rect.height rect2) &&
  Qcgtb (Rect.y rect1 + Rect.height rect1) (Rect.y rect2).

(** The ground/ceiling test of [checkCollisions]. *)
Definition hitsGroundOrCeiling (g : t) : bool :=
  Qcgeb (Bird.y (bird g) + Bird.height (bird g)) (canvasHeight g) ||
  Qcleb (Bird.y (bird g)) 0.

(** [checkCollisions()] *)
Definition checkCollisions (g : t) : bool :=
  let birdBounds := Bird.getBounds (bird g) in
  if hitsGroundOrCeiling g then true
  else
    existsb
      (fun pipe =>
         existsb (fun pipeBounds => rectsIntersect birdBounds pipeBounds)
                 (Pipe.getBounds pipe))
      (pipes g).

(** [gameOver()] *)
Definition gameOver (g : t) : t :=
  set_isGameOver true (set_isRunning false g).

(** [a % b === 0] on integers ([a % 0] is [NaN]). *)
Definition remIsZero (a b : Z) : bool :=
  negb (b =? 0)%Z && (Z.rem a b =? 0)%Z.

(** The statements of [update] in order, after the guard. *)

Definition updateBird (g : t) : t :=
  set_bird (Bird.update (bird g)) g.

Definition updatePipes (g : t) : t :=
  set_pipes (map Pipe.update (pipes g)) g.

Definition removeOffScreen (g : t) : t :=
  set_pipes (filter (fun pipe => negb (Pipe.isOffScreen pipe)) (pipes g)) g.

Definition countFrame (g : t) : t :=
  set_frameCount (frameCount g + 1)%Z g.

(** The guard of the periodic spawn, after [frameCount++]. *)
Definition spawnDue (g : t) : bool :=
  remIsZero (frameCount g) (pipeGap g).

Definition spawnPeriodically (random : Qc) (g : t) : t :=
  if spawnDue g then spawnPipe random g else g.

(** The scoring [forEach]: the pipes after the calls of [isPassed] and
    the score after the increments. *)
Fixpoint scorePipes (birdX : Qc) (ps : list Pipe.t) (score : Z)
    : list Pipe.t * Z :=
  match ps with
  | [] => ([], score)
  | pipe :: ps =>
      let '(fired, pipe') := Pipe.isPassed birdX pipe in
      let score := if fired then (score + 1)%Z else score in
      let '(ps', score) := scorePipes birdX ps score in
      (pipe' :: ps', score)
  end.

Definition checkScoring (g : t) : t :=
  let '(ps, s) := scorePipes (Bird.x (bird g)) (pipes g) (score g) in
  set_score s (set_pipes ps g).

(** The guard that opens [update]. *)
Definition active (g : t) : bool :=
  negb (negb (isRunning g) || isGameOver g).

(** [update()] up to the scoring loop. *)
Definition beforeScoring (random : Qc) (g : t) : t :=
  spawnPeriodically random
    (countFrame (removeOffScreen (updatePipes (updateBird g)))).

(** [update()] up to the collision check. *)
Definition advance (random : Qc) (g : t) : t :=
  checkScoring (beforeScoring random g).

(** [update()]; [random] is what [Math.random()] returns if this call
    spawns a pipe. *)
Definition update (random : Qc) (g : t) : t :=
  if negb (isRunning g) || isGameOver g then g
  else
    let g := advance random g in
    if checkCollisions g then gameOver g else g.

(** *** Input and the frame callback *)

Inductive key : Type := Space | Enter | OtherKey.

(** What drives the game: a frame of [gameLoop], a key press, a click on
    the canvas, a click on one of the two menu buttons.  An event that
    can spawn a pipe carries what [Math.random()] returns then. *)
Inductive event : Type :=
| Frame (random : Qc)
| KeyDown (code : key) (random : Qc)
| CanvasClick
| StartButton (random : Qc)
| RestartButton (random : Qc).

Definition isSpaceOrEnter (code : key) : bool :=
  match code with Space | Enter => true | OtherKey => false end.

Definition isSpace (code : key) : bool :=
  match code with Space => true | _ => false end.

(** The [keydown] listener.  [menu.restartGame()] and [menu.startGame()]
    both end in the [onStart] callback, which is [startGame]. *)
Definition keydown (code : key) (random : Qc) (g : t) : t :=
  if isSpaceOrEnter code && (negb (isRunning g) || isGameOver g) then
    if isGameOver g then startGame random g else startGame random g
  else if isSpace code && isRunning g && negb (isGameOver g) then
    set_bird (Bird.flap (bird g)) g
  else g.

(** The [click] listener of the canvas. *)
Definition click (g : t) : t :=
  if isRunning g && negb (isGameOver g)
  then set_bird (Bird.flap (bird g)) g
  else g.

Definition handle (e : event) (g : t) : t :=
  match e with
  | Frame random => update random g
  | KeyDown code random => keydown code random g
  | CanvasClick => click g
  | StartButton random => startGame random g
  | RestartButton random => startGame random g
  end.

(** The events in order, from [g]. *)
Fixpoint run (es : list event) (g : t) : t :=
  match es with
  | [] => g
  | e :: es => run es (handle e g)
  end.

(** *** Observations for the statements

    What follows is not in the source: it names what a call of
    [update()] drops and scores, and sequences of events. *)

(** The pipes that [removeOffScreen] drops. *)
Definition offScreen (g : t) : list Pipe.t :=
  filter Pipe.isOffScreen (pipes g).

(** The pipes that the filter of [update()] on [g] drops. *)
Definition droppedBy (g : t) : list Pipe.t :=
  if active g then offScreen (updatePipes (updateBird g)) else [].

(** The pipes for which [isPassed] returns true in [update()] on [g]. *)
Definition firedBy (random : Qc) (g : t) : list Pipe.t :=
  if active g then
    let g' := beforeScoring random g in
    filter (fun pipe => fst (Pipe.isPassed (Bird.x (bird g')) pipe)) (pipes g')
  else [].

(** Whether the event calls [startGame] in state [g]. *)
Definition startsGame (e : event) (g : t) : bool :=
  match e with
  | Frame _ => false
  | KeyDown code _ => isSpaceOrEnter code && (negb (isRunning g) || isGameOver g)
  | CanvasClick => false
  | StartButton _ => true
  | RestartButton _ => true
  end.

(** The events in order, with a log of the pipes that the off-screen
    filter has dropped since the last [startGame]. *)
Definition logged (e : event) (g : t) (log : list Pipe.t) : list Pipe.t :=
  match e with
  | Frame _ => log ++ droppedBy g
  | _ => if startsGame e g then [] else log
  end.

Fixpoint runLogged (es : list event) (g : t) (log : list Pipe.t)
    : t * list Pipe.t :=
  match es with
  | [] => (g, log)
  | e :: es => runLogged es (handle e g) (logged e g log)
  end.

(** The events stay within the run that [g] is in: none of them calls
    [startGame] in the state it meets. *)
Fixpoint sameRun (es : list event) (g : t) : bool :=
  match es with
  | [] => true
  | e :: es => negb (startsGame e g) && sameRun es (handle e g)
  end.

Definition isFrame (e : event) : bool :=
  match e with Frame _ => true | _ => false end.

(** The number of frames among the events. *)
Definition frames (es : list event) : Z :=
  Z.of_nat (length (filter isFrame es)).

(** A game has been started: it is running or over. *)
Definition started (g : t) : bool := isRunning g || isGameOver g.

(** The number of pipes whose [passed] flag is set. *)
Definition passedCount (ps : list Pipe.t) : Z :=
  Z.of_nat (length (filter Pipe.passed ps)).

(** A player for the examples: before each of [n] frames the player
    clicks when the bird is below [y = 300]. *)
Fixpoint pilot (random : Qc) (n : nat) (g : t) : list event :=
  match n with
  | O => []
  | S n =>
      let es :=
        if Qcgtb (Bird.y (bird g)) (Q2Qc 300)
        then [CanvasClick; Frame random]
        else [Frame random] in
      es ++ pilot random n (run es g)
  end.

(** *** What holds in every state the game can be in (not in the
    source either) *)

(** A pipe that the next [update()] will not drop unpassed: it is
    passed already, or one more step to the left leaves it on screen. *)
Definition settled (p : Pipe.t) : Prop :=
  Pipe.passed p = true \/ Pipe.speed p <= Pipe.x p + Pipe.width p.

(** A pipe as [spawnPipe] makes them. *)
Definition standard (p : Pipe.t) : Prop :=
  Pipe.speed p = Q2Qc 1.45 /\ Pipe.width p = Q2Qc 72.

Record consistent (g : t) : Prop := mkConsistent {
  bird_canvasHeight : Bird.canvasHeight (bird g) = canvasHeight g;
  bird_x : Bird.x (bird g) = Q2Qc 50;
  pipeGap_300 : pipeGap g = 300%Z;
  canvasWidth_nonneg : 0 <= canvasWidth g;
  frameCount_nonneg : (0 <= frameCount g)%Z;
  score_nonneg : (0 <= score g)%Z;
  pipes_standard : Forall standard (pipes g);
  pipes_settled : Forall settled (pipes g);
  flags_exclusive : isRunning g = true -> isGameOver g = false
}.

End Game.

(* ================================================================= *)
(** ** Repeated calls *)

Module Flight.

(** [n] calls of [bird.update()] in a row. *)
Definition updates (n : nat) (b : Bird.t) : Bird.t :=
  Nat.iter n Bird.update b.

(** [n] calls of [pipe.update()] in a row. *)
Definition pipeUpdates (n : nat) (p : Pipe.t) : Pipe.t :=
  Nat.iter n Pipe.update p.

End Flight.

(* ================================================================= *)
(** ** The shape of the objects the game makes *)

Module Shape.

(** A bird as [new Bird(ctx, canvasWidth, canvasHeight)] makes it, up to
    its position and velocity. *)
Definition bird (canvasHeight : Qc) (b : Bird.t) : Prop :=
  Bird.canvasHeight b = canvasHeight /\
  Bird.width b = Q2Qc 30 /\
  Bird.height b = Q2Qc 20 /\
  Bird.x b = Q2Qc 50 /\
  Bird.gravity b = Q2Qc 0.2 /\
  Bird.jumpStrength b = Q2Qc (-7).

(** A pipe as [spawnPipe] makes it, up to its position, its flag and
    the height drawn for its top. *)
Definition pipe (canvasHeight : Qc) (p : Pipe.t) : Prop :=
  Pipe.canvasHeight p = canvasHeight /\
  Pipe.width p = Q2Qc 72 /\
  Pipe.speed p = Q2Qc 1.45 /\
  Pipe.gap p = Q2Qc 250 /\
  Pipe.bottomY p = Pipe.topHeight p + Pipe.gap p /\
  Pipe.bottomHeight p = canvasHeight - Pipe.bottomY p.

(** A game on a canvas of [width] by [height]. *)
Definition game (width height : N) (g : Game.t) : Prop :=
  Game.canvasWidth g = of_N width /\
  Game.canvasHeight g = of_N height /\
  bird (of_N height) (Game.bird g) /\
  Forall (pipe (of_N height)) (Game.pipes g).

(** The draws of [Math.random()] that an event carries are in [0, 1). *)
Definition fair (e : Game.event) : Prop :=
  match e with
  | Game.Frame r | Game.KeyDown _ r | Game.StartButton r
  | Game.RestartButton r => 0 <= r /\ r < 1
  | Game.CanvasClick => True
  end.



End Shape.

(* ================================================================= *)
(** ** The stream of pipes *)

Module Stream.

(** An integer as a number. *)
Definition of_Z (z : Z) : Qc := Q2Qc (inject_Z z).

(** The x positions of the pipes of a game, the newest pipe first. *)
Definition newestFirst (g : Game.t) : list Qc :=
  rev (map Pipe.x (Game.pipes g)).

(** Each position is [d] to the left of the one before it. *)
Fixpoint descending (d : Qc) (xs : list Qc) : Prop :=
  match xs with
  | x :: ((y :: _) as rest) => y = x - d /\ descending d rest
  | _ => True
  end.

(** The first position, if there is one, is [x]. *)
Definition headIs (x : Qc) (xs : list Qc) : Prop :=
  match xs with
  | y :: _ => y = x
  | [] => True
  end.

End Stream.

(* ================================================================= *)
(** ** Drawing: [draw] of [bird.js] and [pipe.js], [render] of [game.js] *)

Module Canvas.

(** The calls made on the 2D context. *)
Inductive op : Type :=
| ClearRect (x y width height : Qc)
| FillStyle (color : string)
| FillRect (x y width height : Qc).

(** [Bird.draw()]; [this.color] is set to ['#ffcc00'] by the constructor
    and never assigned again. *)
Definition drawBird (b : Bird.t) : list op :=
  [ FillStyle "#ffcc00";
    FillRect (Bird.x b) (Bird.y b) (Bird.width b) (Bird.height b);
    FillStyle "#fff";
    FillRect (Bird.x b + Q2Qc 20) (Bird.y b + Q2Qc 4) (Q2Qc 6) (Q2Qc 6);
    FillStyle "#000";
    FillRect (Bird.x b + Q2Qc 22) (Bird.y b + Q2Qc 6) (Q2Qc 2) (Q2Qc 2) ].

(** [Pipe.draw()]; [this.color] is ['#228B22'] throughout. *)
Definition drawPipe (p : Pipe.t) : list op :=
  [ FillStyle "#228B22";
    FillRect (Pipe.x p) 0 (Pipe.width p) (Pipe.topHeight p);
    FillRect (Pipe.x p) (Pipe.bottomY p) (Pipe.width p) (Pipe.bottomHeight p) ].

(** [Game.render()]: the calls in order. *)
Definition render (g : Game.t) : list op :=
  [ ClearRect 0 0 (Game.canvasWidth g) (Game.canvasHeight g);
    FillStyle "#70c5ce";
    FillRect 0 0 (Game.canvasWidth g) (Game.canvasHeight g) ]
  ++ (if Game.isRunning g then flat_map drawPipe (Game.pipes g) else [])
  ++ drawBird (Game.bird g).

(** The rectangles a list of calls fills, each with the fill style in
    force at its call; [style] is the fill style before the first. *)
Fixpoint fills (style : string) (ops : list op) : list (string * Rect.t) :=
  match ops with
  | [] => []
  | ClearRect _ _ _ _ :: ops => fills style ops
  | FillStyle color :: ops => fills color ops
  | FillRect x y w h :: ops =>
      (style, Rect.mk x y w h) :: fills style ops
  end.

End Canvas.

(* ================================================================= *)
(** ** menu.js, with the elements it shows and hides *)

Module Menu.

(** What the menu does to the page: [style.display] of the menu element
    and of the game over element, and [textContent] of the element
    [#final-score] inside the latter, when there is one. *)
Record t : Type := mk {
  menuDisplay : string;
  gameOverDisplay : string;
  finalScore : option string
}.

(** A number in a template literal. *)
Definition number (n : Z) : string := NilZero.string_of_int (Z.to_int n).

(** [show()] *)
Definition show (m : t) : t :=
  mk "flex" (gameOverDisplay m) (finalScore m).

(** [hide()] *)
Definition hide (m : t) : t :=
  mk "none" (gameOverDisplay m) (finalScore m).

(** [showGameOver(score)] *)
Definition showGameOver (score : Z) (m : t) : t :=
  let m :=
    match finalScore m with
    | Some _ =>
        mk (menuDisplay m) (gameOverDisplay m)
           (Some ("Your Score: " ++ number score)%string)
    | None => m
    end in
  let m := mk (menuDisplay m) "flex" (finalScore m) in
  hide m.

(** [hideGameOver()] *)
Definition hideGameOver (m : t) : t :=
  mk (menuDisplay m) "none" (finalScore m).

End Menu.

(* ================================================================= *)
(** ** game.js with its page: the game, the menu and the score display *)

Module App.

Record t : Type := mk {
  game : Game.t;
  menu : Menu.t;
  (** [scoreDisplay.textContent] *)
  scoreText : string;
  (** [scoreDisplay.style.display] *)
  scoreShown : string
}.

(** The text that [updateScoreDisplay()] writes for a score. *)
Definition scoreLabel (score : Z) : string :=
  ("Score: " ++ Menu.number score)%string.

(** The constructor of [Game], on a page whose elements exist: [page] is
    the menu's part of the page as loaded, [text] and [shown] the score
    display's. *)
Definition constructor (width height : N) (page : Menu.t)
    (text shown : string) : t :=
  {| game := Game.constructor width height;
     menu := Menu.show (Menu.hideGameOver page);
     scoreText := text;
     scoreShown := shown |}.

(** [Game.startGame()] *)
Definition startGame (random : Qc) (a : t) : t :=
  let m := Menu.hideGameOver (Menu.hide (menu a)) in
  let g := Game.set_bird (Bird.reset (Game.bird (game a))) (game a) in
  let g := Game.set_pipes [] g in
  let g := Game.set_score 0 g in
  let text := scoreLabel (Game.score g) in
  let g := Game.set_isRunning true g in
  let g := Game.set_isGameOver false g in
  let g := Game.set_frameCount 0 g in
  let shown := "block"%string in
  let g := Game.spawnPipe random g in
  {| game := g; menu := m; scoreText := text; scoreShown := shown |}.

(** [Menu.startGame()], whose [onStart] is [Game.startGame]. *)
Definition menuStartGame (random : Qc) (a : t) : t :=
  let m := Menu.hideGameOver (Menu.hide (menu a)) in
  startGame random (mk (game a) m (scoreText a) (scoreShown a)).

(** [Menu.restartGame()] *)
Definition menuRestartGame (random : Qc) (a : t) : t :=
  let m := Menu.hideGameOver (menu a) in
  startGame random (mk (game a) m (scoreText a) (scoreShown a)).

(** The scoring [forEach] of [update], with the call of
    [updateScoreDisplay()] after each increment. *)
Fixpoint scorePipes (birdX : Qc) (ps : list Pipe.t) (score : Z)
    (text : string) : list Pipe.t * Z * string :=
  match ps with
  | [] => ([], score, text)
  | pipe :: ps =>
      let '(fired, pipe') := Pipe.isPassed birdX pipe in
      let score := if fired then (score + 1)%Z else score in
      let text := if fired then scoreLabel score else text in
      let '(ps', score, text) := scorePipes birdX ps score text in
      (pipe' :: ps', score, text)
  end.

(** [Game.gameOver()] *)
Definition gameOver (a : t) : t :=
  let g := Game.set_isGameOver true (Game.set_isRunning false (game a)) in
  {| game := g;
     menu := Menu.showGameOver (Game.score g) (menu a);
     scoreText := scoreText a;
     scoreShown := "none" |}.

(** [Game.update()] *)
Definition update (random : Qc) (a : t) : t :=
  let g := game a in
  if negb (Game.isRunning g) || Game.isGameOver g then a
  else
    let g := Game.beforeScoring random g in
    let '(ps, s, text) :=
      scorePipes (Bird.x (Game.bird g)) (Game.pipes g) (Game.score g)
        (scoreText a) in
    let g := Game.set_score s (Game.set_pipes ps g) in
    let a := mk g (menu a) text (scoreShown a) in
    if Game.checkCollisions g then gameOver a else a.

(** [bird.flap()] on the game of the page. *)
Definition flap (a : t) : t :=
  mk (Game.set_bird (Bird.flap (Game.bird (game a))) (game a))
     (menu a) (scoreText a) (scoreShown a).

(** The [keydown] listener. *)
Definition keydown (code : Game.key) (random : Qc) (a : t) : t :=
  let g := game a in
  if Game.isSpaceOrEnter code && (negb (Game.isRunning g) || Game.isGameOver g)
  then
    if Game.isGameOver g then menuRestartGame random a
    else menuStartGame random a
  else if Game.isSpace code && Game.isRunning g && negb (Game.isGameOver g)
  then flap a
  else a.

(** The [click] listener of the canvas. *)
Definition click (a : t) : t :=
  if Game.isRunning (game a) && negb (Game.isGameOver (game a))
  then flap a
  else a.

Definition handle (e : Game.event) (a : t) : t :=
  match e with
  | Game.Frame random => update random a
  | Game.KeyDown code random => keydown code random a
  | Game.CanvasClick => click a
  | Game.StartButton random => menuStartGame random a
  | Game.RestartButton random => menuRestartGame random a
  end.

(** The events in order. *)
Fixpoint run (es : list Game.event) (a : t) : t :=
  match es with
  | [] => a
  | e :: es => run es (handle e a)
  end.

End App.

(* ================================================================= *)
(** * Properties *)

(** ** Numbers *)

(** The operations on [Qc] normalise fractions with a gcd; simplification
    must not open them. *)
Arguments Q2Qc : simpl never.
Arguments Qcplus : simpl never.
Arguments Qcminus : simpl never.
Arguments Qcmult : simpl never.
Arguments Qcopp : simpl never.
Arguments Qcdiv : simpl never.
Arguments Qcinv : simpl never.
Arguments Qccompare : simpl never.
Arguments Qcltb : simpl never.

Section Numbers.

Lemma Qcltb_lt (a b : Qc) : Qcltb a b = true <-> a < b.
Proof.
  unfold Qcltb. rewrite Qclt_alt.
  destruct (a ?= b); split; congruence.
Qed.

Lemma Qcltb_ge (a b : Qc) : Qcltb a b = false <-> b <= a.
Proof.
  split; intros H.
  - apply Qcnot_lt_le. intros L. apply Qcltb_lt in L. congruence.
  - destruct (Qcltb a b) eqn:E; [|reflexivity].
    apply Qcltb_lt in E. apply Qcle_not_lt in H. contradiction.
Qed.

Lemma Qc_eq_Qeq (a b : Qc) : a = b <-> (a == b)%Q.
Proof. split; [intros ->; reflexivity | apply Qc_is_canon]. Qed.

Lemma this_Q2Qc (q : Q) : (this (Q2Qc q) == q)%Q.
Proof. apply Qred_correct. Qed.

Lemma this_plus (a b : Qc) : (this (a + b) == this a + this b)%Q.
Proof. apply Qred_correct. Qed.

Lemma this_mult (a b : Qc) : (this (a * b) == this a * this b)%Q.
Proof. apply Qred_correct. Qed.

Lemma this_opp (a : Qc) : (this (- a) == - this a)%Q.
Proof. apply Qred_correct. Qed.

Lemma this_minus (a b : Qc) : (this (a - b) == this a - this b)%Q.
Proof. unfold Qcminus. rewrite this_plus, this_opp. reflexivity. Qed.

Lemma this_inv (a : Qc) : (this (/ a) == / this a)%Q.
Proof. apply Qred_correct. Qed.

Lemma this_div (a b : Qc) : (this (a / b) == this a / this b)%Q.
Proof. unfold Qcdiv. rewrite this_mult, this_inv. reflexivity. Qed.

End Numbers.

(** Statements on [Qc] are carried to [Q], where [lra] decides them. *)
Ltac qc_to_q :=
  repeat match goal with
  | H : @eq Qc _ _ |- _ => apply Qc_eq_Qeq in H
  | H : ~ @eq Qc _ _ |- _ => rewrite Qc_eq_Qeq in H
  | |- @eq Qc _ _ => apply Qc_is_canon
  | |- ~ @eq Qc _ _ => rewrite Qc_eq_Qeq
  end;
  unfold Qcle, Qclt in *;
  repeat match goal with
  | H : context [this (Q2Qc ?q)] |- _ => rewrite (this_Q2Qc q) in H
  | H : context [this (?a + ?b)] |- _ => rewrite (this_plus a b) in H
  | H : context [this (?a - ?b)] |- _ => rewrite (this_minus a b) in H
  | H : context [this (?a * ?b)] |- _ => rewrite (this_mult a b) in H
  | H : context [this (?a / ?b)] |- _ => rewrite (this_div a b) in H
  | H : context [this (- ?a)] |- _ => rewrite (this_opp a) in H
  | H : context [this (/ ?a)] |- _ => rewrite (this_inv a) in H
  | |- context [this (Q2Qc ?q)] => rewrite (this_Q2Qc q)
  | |- context [this (?a + ?b)] => rewrite (this_plus a b)
  | |- context [this (?a - ?b)] => rewrite (this_minus a b)
  | |- context [this (?a * ?b)] => rewrite (this_mult a b)
  | |- context [this (?a / ?b)] => rewrite (this_div a b)
  | |- context [this (- ?a)] => rewrite (this_opp a)
  | |- context [this (/ ?a)] => rewrite (this_inv a)
  end;
  unfold Qdiv in *;
  repeat match goal with
  | H : context [Qinv (?n # ?d)] |- _ =>
      let v := eval compute in (Qinv (n # d)) in
      change (Qinv (n # d)) with v in H
  | |- context [Qinv (?n # ?d)] =>
      let v := eval compute in (Qinv (n # d)) in
      change (Qinv (n # d)) with v
  end.

Ltac qc_lra := qc_to_q; lra.

(** Boolean comparisons in the hypotheses become propositions. *)
Ltac ltb_hyps :=
  unfold Qcgtb, Qcleb, Qcgeb in *;
  repeat match goal with
  | H : negb _ = true |- _ => apply negb_true_iff in H
  | H : negb _ = false |- _ => apply negb_false_iff in H
  | H : Qcltb _ _ = true |- _ => apply Qcltb_lt in H
  | H : Qcltb _ _ = false |- _ => apply Qcltb_ge in H
  end.

(** A case split on the first comparison in the goal. *)
Ltac ltb_case :=
  unfold Qcgtb, Qcleb, Qcgeb;
  match goal with
  | |- context [Qcltb ?a ?b] =>
      let E := fresh "E" in
      destruct (Qcltb a b) eqn:E;
      [apply Qcltb_lt in E | apply Qcltb_ge in E]
  end.

(* ================================================================= *)
(** ** The bird *)

Section BirdProperties.

Lemma Bird_integrate_y (b : Bird.t) :
  Bird.y (Bird.integrate b) = Bird.y b + (Bird.velocity b + Bird.gravity b).
Proof. reflexivity. Qed.

Lemma Bird_integrate_velocity (b : Bird.t) :
  Bird.velocity (Bird.integrate b) = Bird.velocity b + Bird.gravity b.
Proof. reflexivity. Qed.

Lemma Bird_update_canvasHeight (b : Bird.t) :
  Bird.canvasHeight (Bird.update b) = Bird.canvasHeight b.
Proof.
  unfold Bird.update, Bird.clampCeiling, Bird.clampFloor.
  destruct (Bird.belowCanvas (Bird.integrate b));
    destruct (Bird.aboveCanvas _); reflexivity.
Qed.

Lemma Bird_update_height (b : Bird.t) :
  Bird.height (Bird.update b) = Bird.height b.
Proof.
  unfold Bird.update, Bird.clampCeiling, Bird.clampFloor.
  destruct (Bird.belowCanvas (Bird.integrate b));
    destruct (Bird.aboveCanvas _); reflexivity.
Qed.

Lemma Bird_update_x (b : Bird.t) :
  Bird.x (Bird.update b) = Bird.x b.
Proof.
  unfold Bird.update, Bird.clampCeiling, Bird.clampFloor.
  destruct (Bird.belowCanvas (Bird.integrate b));
    destruct (Bird.aboveCanvas _); reflexivity.
Qed.

(** After a call of [update] that took one of its two branches, the bird
    sits on the floor or on the ceiling. *)
Lemma Bird_clamps_position (b : Bird.t) :
  Bird.clamps b = true ->
  Bird.y (Bird.update b) = Bird.canvasHeight b - Bird.height b \/
  Bird.y (Bird.update b) = 0.
Proof.
  unfold Bird.clamps, Bird.update, Bird.clampCeiling.
  destruct (Bird.aboveCanvas (Bird.clampFloor (Bird.integrate b))) eqn:A.
  - intros _. right. reflexivity.
  - rewrite orb_false_r. unfold Bird.clampFloor. intros ->. left. reflexivity.
Qed.

(** The floor test of [update] is made on the rounded sum
    [y + height], and the position it lets through can lie above
    [canvasHeight - height]: here one call of [update] on a canvas 1030
    high leaves the bird at [y = 1010.0000000000001] without clamping,
    since [1010.0000000000001 + 20] rounds to 1030. *)
Example Bird64_update_rounded_sum :
  let b := Bird64.mk 400 1030 30 20 50 0x1.f900000000001p+9
             (- 0x1.999999999999ap-3) 0x1.999999999999ap-3 (-7) in
  Bird64.clamps b = false /\
  Bird64.y (Bird64.update b) = 0x1.f900000000001p+9%float /\
  (Bird64.y (Bird64.update b) + Bird64.height b)%float = 1030%float /\
  (Bird64.canvasHeight b - Bird64.height b)%float = 1010%float /\
  (Bird64.y (Bird64.update b) <=?
     Bird64.canvasHeight b - Bird64.height b)%float = false.
Proof. vm_compute. repeat split. Qed.

(** C2, refuted as stated.  On a canvas 1024 high the bird of a new
    game, flapped before frames 3 and 81, has met neither the ground nor
    the ceiling test of the game up to frame 187; the [update()] of
    frame 188 takes neither clamp and leaves it at
    [y = 1004.0000000000001], above [canvasHeight - height = 1004]:
    [y + height] rounds to 1024, which is not greater than the canvas
    height. *)
Lemma Bird64_update_above_floor :
  let start := Bird64.reset (Bird64.constructor 400 1024) in
  let b := Bird64.play [3; 81]%nat 1 187 start in
  (Bird64.height b <=? Bird64.canvasHeight b)%float = true /\
  forallb (fun n => negb (Bird64.hitsGroundOrCeiling
                            (Bird64.play [3; 81]%nat 1 n start)))
          (seq 0 188) = true /\
  Bird64.clamps b = false /\
  (Bird64.canvasHeight b - Bird64.height b)%float = 1004%float /\
  Bird64.y (Bird64.update b) = 0x1.f600000000001p+9%float /\
  (Bird64.y (Bird64.update b) <=?
     Bird64.canvasHeight b - Bird64.height b)%float = false /\
  (Bird64.canvasHeight b - Bird64.height b <?
     Bird64.y (Bird64.update b))%float = true.
Proof. vm_compute. repeat split. Qed.

(** C2, as the code has it.  After [update()], on doubles:
    - [y < 0] is false;
    - a clamp is taken exactly when the integrated position has
      [y + height > canvasHeight], the sum rounded, or [y < 0];
    - whenever a clamp is taken the velocity is 0 and [y] is the
      difference [canvasHeight - height] or 0;
    - when none is taken the call is the plain integration, and the
      rounded sum [y + height] is not greater than [canvasHeight].
    The bound [y <= canvasHeight - height] is the one part of the
    sentence that rounding removes. *)
Theorem Bird64_update_clamped (b : Bird64.t) :
  (Bird64.y (Bird64.update b) <? 0)%float = false /\
  (Bird64.clamps b = true <->
   (Bird64.canvasHeight b <?
      Bird64.y (Bird64.integrate b) + Bird64.height b)%float = true \/
   (Bird64.y (Bird64.integrate b) <? 0)%float = true) /\
  (Bird64.clamps b = true ->
   Bird64.velocity (Bird64.update b) = 0%float /\
   (Bird64.y (Bird64.update b)
      = (Bird64.canvasHeight b - Bird64.height b)%float \/
    Bird64.y (Bird64.update b) = 0%float)) /\
  (Bird64.clamps b = false ->
   Bird64.update b = Bird64.integrate b /\
   (Bird64.canvasHeight b <?
      Bird64.y (Bird64.update b) + Bird64.height b)%float = false).
Proof.
  assert (Z0 : (0 <? 0)%float = false) by (vm_compute; reflexivity).
  unfold Bird64.clamps, Bird64.update, Bird64.clampCeiling,
    Bird64.clampFloor, Bird64.belowCanvas, Bird64.aboveCanvas.
  destruct (Bird64.integrate b) as [cw ch w h x y v gr js] eqn:I.
  assert (Hch : Bird64.canvasHeight b = ch)
    by (apply (f_equal Bird64.canvasHeight) in I; exact I).
  assert (Hh : Bird64.height b = h)
    by (apply (f_equal Bird64.height) in I; exact I).
  rewrite Hch, Hh.
  cbn [Bird64.canvasHeight Bird64.height Bird64.y Bird64.velocity
       Bird64.set_y Bird64.set_velocity Bird64.canvasWidth Bird64.width
       Bird64.x Bird64.gravity Bird64.jumpStrength].
  destruct (ch <? y + h)%float eqn:E1;
    cbn [Bird64.canvasHeight Bird64.height Bird64.y Bird64.velocity
         Bird64.set_y Bird64.set_velocity Bird64.canvasWidth Bird64.width
         Bird64.x Bird64.gravity Bird64.jumpStrength orb].
  - destruct (ch - h <? 0)%float eqn:E2;
      cbn [Bird64.y Bird64.velocity Bird64.set_y Bird64.set_velocity
           Bird64.canvasHeight Bird64.height Bird64.canvasWidth
           Bird64.width Bird64.x Bird64.gravity Bird64.jumpStrength].
    + repeat split; auto; discriminate.
    + repeat split; auto; discriminate.
  - destruct (y <? 0)%float eqn:E2;
      cbn [Bird64.y Bird64.velocity Bird64.set_y Bird64.set_velocity
           Bird64.canvasHeight Bird64.height Bird64.canvasWidth
           Bird64.width Bird64.x Bird64.gravity Bird64.jumpStrength].
    + repeat split; auto; discriminate.
    + repeat split; auto; try discriminate.
      intros [C | C]; discriminate.
Qed.

(** C7.  A bird resting at the ceiling ([y = 0], [velocity = 0]) with
    room below it is moved by one [update()] to [y = gravity]: the
    ceiling clamp tests [y < 0] and leaves [y = 0] alone. *)
Theorem Bird_update_from_ceiling (b : Bird.t) :
  Bird.y b = 0 ->
  Bird.velocity b = 0 ->
  0 < Bird.gravity b ->
  0 + Bird.gravity b + Bird.height b <= Bird.canvasHeight b ->
  Bird.y (Bird.update b) = Bird.gravity b /\
  Bird.velocity (Bird.update b) = Bird.gravity b /\
  Bird.clamps b = false.
Proof.
  intros Hy Hv Hg Hroom.
  unfold Bird.clamps, Bird.update, Bird.clampCeiling, Bird.clampFloor,
    Bird.belowCanvas, Bird.aboveCanvas.
  rewrite Bird_integrate_y.
  destruct b as [cw ch w h x y v gr js]; cbn in *. subst y v.
  unfold Qcgtb.
  destruct (Qcltb ch (0 + (0 + gr) + h)) eqn:E1; cbn;
    [apply Qcltb_lt in E1; exfalso; qc_lra | apply Qcltb_ge in E1].
  destruct (Qcltb (0 + (0 + gr)) 0) eqn:E2; cbn;
    [apply Qcltb_lt in E2; exfalso; qc_lra | apply Qcltb_ge in E2].
  repeat split; qc_lra.
Qed.

Lemma Bird_update_from_ceiling_witness :
  let b := Bird.set_y 0 (Bird.constructor (Q2Qc 400) (Q2Qc 700)) in
  Bird.y (Bird.update b) = Bird.gravity b /\
  Bird.velocity (Bird.update b) = Bird.gravity b /\
  Bird.clamps b = false.
Proof.
  apply (Bird_update_from_ceiling
           (Bird.set_y 0 (Bird.constructor (Q2Qc 400) (Q2Qc 700)))).
  - reflexivity.
  - reflexivity.
  - unfold Qclt. vm_compute. reflexivity.
  - unfold Qcle. vm_compute. discriminate.
Defined.

(** C9.  [flap()] sets the velocity to [jumpStrength] whatever it was
    before, and leaves every other field as it was; the constructor
    fixes [jumpStrength] at -7. *)
Theorem Bird_flap_overwrites (b : Bird.t) :
  Bird.velocity (Bird.flap b) = Bird.jumpStrength b /\
  Bird.x (Bird.flap b) = Bird.x b /\
  Bird.y (Bird.flap b) = Bird.y b /\
  Bird.width (Bird.flap b) = Bird.width b /\
  Bird.height (Bird.flap b) = Bird.height b /\
  Bird.gravity (Bird.flap b) = Bird.gravity b /\
  Bird.jumpStrength (Bird.flap b) = Bird.jumpStrength b /\
  Bird.canvasWidth (Bird.flap b) = Bird.canvasWidth b /\
  Bird.canvasHeight (Bird.flap b) = Bird.canvasHeight b /\
  (forall v, Bird.flap (Bird.set_velocity v b) = Bird.flap b) /\
  (forall w h, Bird.jumpStrength (Bird.constructor w h) = Q2Qc (-7)).
Proof. repeat split. Qed.

End BirdProperties.

(* ================================================================= *)
(** ** The pipes *)

Section PipeProperties.

Lemma Pipe_constructor_derived (cw ch x : Qc) (s : Pipe.settings) (r : Qc) :
  let p := Pipe.constructor cw ch x s r in
  Pipe.bottomY p = Pipe.topHeight p + Pipe.gap p /\
  Pipe.bottomHeight p = Pipe.canvasHeight p - Pipe.bottomY p /\
  Pipe.gap p = Pipe.pipeVerticalGap s /\
  Pipe.canvasHeight p = ch /\
  Pipe.passed p = false.
Proof. repeat split. Qed.

Lemma floor_le (q : Qc) : floor q <= q.
Proof.
  unfold floor, Qcle. rewrite this_Q2Qc. apply Qfloor_le.
Qed.

Lemma floor_nonneg (q : Qc) : 0 <= q -> 0 <= floor q.
Proof.
  unfold floor, Qcle. rewrite !this_Q2Qc. intros H.
  change 0%Q with (inject_Z 0). rewrite <- Zle_Qle.
  rewrite <- (Qfloor_Z 0). apply Qfloor_resp_le. exact H.
Qed.

(** On a canvas at least 150 high the top pipe is between 60 and
    [canvasHeight / 3 + 10] high, whatever [Math.random()] returns in
    [0, 1). *)
Lemma Pipe_constructor_topHeight_range (cw ch x : Qc) (s : Pipe.settings)
    (r : Qc) :
  0 <= r -> r < 1 -> Q2Qc 150 <= ch ->
  let p := Pipe.constructor cw ch x s r in
  Q2Qc 60 <= Pipe.topHeight p /\
  Pipe.topHeight p <= ch / Q2Qc 3 + Q2Qc 10.
Proof.
  intros Hr0 Hr1 Hch p. subst p. cbn [Pipe.constructor Pipe.topHeight].
  set (range := ch / Q2Qc 3 - Q2Qc 50).
  assert (Hrange : 0 <= range) by (subst range; qc_lra).
  assert (Hprod0 : 0 <= r * range).
  { replace 0 with (0 * range) by ring.
    apply Qcmult_le_compat_r; assumption. }
  assert (Hprod1 : r * range <= range).
  { replace range with (1 * range) at 2 by ring.
    apply Qcmult_le_compat_r; [apply Qclt_le_weak|]; assumption. }
  pose proof (floor_le (r * range)) as Hfl.
  pose proof (floor_nonneg _ Hprod0) as Hfl0.
  assert (Hdef : range = ch / Q2Qc 3 - Q2Qc 50) by reflexivity.
  clearbody range.
  generalize dependent (floor (r * range)). intros f Hf1 Hf0.
  generalize dependent (r * range). intros q _ Hq Hf1.
  split; qc_lra.
Qed.

(** Where the gap does fit: on a canvas at least 150 high, for a gap of
    at most [2/3 canvasHeight - 10]; the default gap of 250 on the
    canvas 700 high is such a case. *)
Lemma Pipe_constructor_gap_fits (cw ch x : Qc) (s : Pipe.settings) (r : Qc) :
  0 <= r -> r < 1 -> Q2Qc 150 <= ch ->
  Pipe.pipeVerticalGap s <= Q2Qc (2 # 3) * ch - Q2Qc 10 ->
  let p := Pipe.constructor cw ch x s r in
  Pipe.topHeight p + Pipe.gap p <= ch /\ 0 <= Pipe.bottomHeight p.
Proof.
  intros Hr0 Hr1 Hch Hgap p.
  destruct (Pipe_constructor_topHeight_range cw ch x s r Hr0 Hr1 Hch)
    as [_ Htop].
  subst p. cbn [Pipe.constructor Pipe.topHeight Pipe.gap Pipe.bottomHeight] in *.
  generalize dependent (floor (r * (ch / Q2Qc 3 - Q2Qc 50))). intros f Hf.
  split; qc_lra.
Qed.

Lemma Pipe_constructor_gap_fits_default (r : Qc) :
  0 <= r -> r < 1 ->
  let p := Pipe.constructor (Q2Qc 400) (Q2Qc 700) (Q2Qc 400)
             Pipe.defaultSettings r in
  Pipe.topHeight p + Pipe.gap p <= Q2Qc 700 /\ 0 <= Pipe.bottomHeight p.
Proof.
  intros Hr0 Hr1.
  apply Pipe_constructor_gap_fits; try assumption.
  - unfold Qcle. vm_compute. discriminate.
  - unfold Qcle. vm_compute. discriminate.
Qed.

(** C1.  The constructor takes the gap from [settings] and draws the top
    height from a range that does not look at it: with a gap of 600 on
    the canvas 700 high and [Math.random()] returning 1/2, the top pipe
    is 151 high, the bottom pipe starts at 751, below the canvas, and
    its height is -51.  The gap does not fit. *)
Theorem Pipe_constructor_gap_overflows :
  let s := {| Pipe.pipeSpeed := Q2Qc 1.45; Pipe.pipeVerticalGap := Q2Qc 600 |} in
  let p := Pipe.constructor (Q2Qc 400) (Q2Qc 700) (Q2Qc 400) s (Q2Qc 0.5) in
  Pipe.topHeight p = Q2Qc 151 /\
  Pipe.bottomY p = Q2Qc 751 /\
  Pipe.bottomHeight p = Q2Qc (-51) /\
  ~ (Pipe.topHeight p + Pipe.gap p <= Pipe.canvasHeight p) /\
  ~ (0 <= Pipe.bottomHeight p).
Proof.
  cbv zeta.
  repeat split; try (apply Qc_is_canon; vm_compute; reflexivity);
    unfold Qcle; vm_compute; intros H; apply H; reflexivity.
Qed.

(** The same with the default settings on a canvas 300 high: the top
    pipe is at least 60 high and the default gap of 250 takes the bottom
    pipe to 310 or below. *)
Example Pipe_constructor_gap_overflows_low_canvas :
  let p := Pipe.constructor (Q2Qc 300) (Q2Qc 300) (Q2Qc 300)
             Pipe.defaultSettings 0 in
  Pipe.topHeight p = Q2Qc 60 /\
  Pipe.bottomY p = Q2Qc 310 /\
  Pipe.bottomHeight p = Q2Qc (-10).
Proof.
  cbv zeta. repeat split; apply Qc_is_canon; vm_compute; reflexivity.
Qed.

Lemma Pipe_isPassed_fst (birdX : Qc) (p : Pipe.t) :
  fst (Pipe.isPassed birdX p) = true <->
  Pipe.passed p = false /\ birdX > Pipe.x p + Pipe.width p.
Proof.
  unfold Pipe.isPassed, Qcgtb.
  destruct (Pipe.passed p); cbn.
  - split; [discriminate | intros [H _]; discriminate].
  - destruct (Qcltb (Pipe.x p + Pipe.width p) birdX) eqn:E; cbn.
    + apply Qcltb_lt in E. tauto.
    + apply Qcltb_ge in E. split; [discriminate|].
      intros [_ H]. apply Qcle_not_lt in E. contradiction.
Qed.

Lemma Pipe_isPassed_snd (birdX : Qc) (p : Pipe.t) :
  snd (Pipe.isPassed birdX p) =
  if fst (Pipe.isPassed birdX p) then Pipe.set_passed true p else p.
Proof.
  unfold Pipe.isPassed.
  destruct (negb (Pipe.passed p) && Qcgtb birdX (Pipe.x p + Pipe.width p));
    reflexivity.
Qed.

Lemma Pipe_isPassed_passed (birdX : Qc) (p : Pipe.t) :
  Pipe.passed (snd (Pipe.isPassed birdX p)) =
  Pipe.passed p || fst (Pipe.isPassed birdX p).
Proof.
  unfold Pipe.isPassed.
  destruct (Pipe.passed p) eqn:E; cbn; [exact E|].
  destruct (Qcgtb birdX (Pipe.x p + Pipe.width p)); cbn; auto.
Qed.

Lemma Pipe_isPassed_geometry (birdX : Qc) (p : Pipe.t) :
  let p' := snd (Pipe.isPassed birdX p) in
  Pipe.x p' = Pipe.x p /\ Pipe.width p' = Pipe.width p /\
  Pipe.speed p' = Pipe.speed p.
Proof.
  cbv zeta. rewrite Pipe_isPassed_snd.
  destruct (fst (Pipe.isPassed birdX p)); repeat split.
Qed.

Lemma Pipe_lifetime_update (cs : list Pipe.call) (p : Pipe.t) :
  Pipe.lifetime (Pipe.Update :: cs) p = Pipe.lifetime cs (Pipe.update p).
Proof. reflexivity. Qed.

Lemma Pipe_lifetime_isPassed (birdX : Qc) (cs : list Pipe.call) (p : Pipe.t) :
  Pipe.lifetime (Pipe.IsPassed birdX :: cs) p =
  (fst (Pipe.isPassed birdX p)
     :: fst (Pipe.lifetime cs (snd (Pipe.isPassed birdX p))),
   snd (Pipe.lifetime cs (snd (Pipe.isPassed birdX p)))).
Proof.
  cbn [Pipe.lifetime].
  destruct (Pipe.isPassed birdX p) as [r p']. cbn [fst snd].
  destruct (Pipe.lifetime cs p') as [rs p'']. reflexivity.
Qed.

Lemma Pipe_lifetime_app (cs1 cs2 : list Pipe.call) (p : Pipe.t) :
  Pipe.lifetime (cs1 ++ cs2) p =
  (fst (Pipe.lifetime cs1 p)
     ++ fst (Pipe.lifetime cs2 (snd (Pipe.lifetime cs1 p))),
   snd (Pipe.lifetime cs2 (snd (Pipe.lifetime cs1 p)))).
Proof.
  revert p. induction cs1 as [|c cs1 IH]; intros p.
  - cbn. destruct (Pipe.lifetime cs2 p); reflexivity.
  - destruct c as [|birdX].
    + cbn [app]. rewrite !Pipe_lifetime_update. apply IH.
    + cbn [app]. rewrite !Pipe_lifetime_isPassed. rewrite IH. reflexivity.
Qed.

(** The flag after a life is the flag before or one of the results. *)
Lemma Pipe_lifetime_passed (cs : list Pipe.call) (p : Pipe.t) :
  Pipe.passed (snd (Pipe.lifetime cs p)) =
  Pipe.passed p || existsb (fun r => r) (fst (Pipe.lifetime cs p)).
Proof.
  revert p. induction cs as [|c cs IH]; intros p.
  - cbn. rewrite orb_false_r. reflexivity.
  - destruct c as [|birdX].
    + rewrite Pipe_lifetime_update, IH. reflexivity.
    + rewrite Pipe_lifetime_isPassed. cbn [fst snd existsb].
      rewrite IH, Pipe_isPassed_passed, orb_assoc. reflexivity.
Qed.

(** A pipe whose flag is set never answers [true] again. *)
Lemma Pipe_lifetime_after_passed (cs : list Pipe.call) (p : Pipe.t) :
  Pipe.passed p = true ->
  forallb negb (fst (Pipe.lifetime cs p)) = true.
Proof.
  revert p. induction cs as [|c cs IH]; intros p Hp.
  - reflexivity.
  - destruct c as [|birdX].
    + rewrite Pipe_lifetime_update. apply IH. exact Hp.
    + rewrite Pipe_lifetime_isPassed. cbn [fst forallb].
      assert (F : fst (Pipe.isPassed birdX p) = false).
      { destruct (fst (Pipe.isPassed birdX p)) eqn:E; [|reflexivity].
        apply Pipe_isPassed_fst in E. destruct E as [E _]. congruence. }
      rewrite F. cbn. apply IH.
      rewrite Pipe_isPassed_passed, Hp. reflexivity.
Qed.

Lemma hits_none (rs : list bool) :
  forallb negb rs = true -> Pipe.hits rs = 0%nat.
Proof.
  induction rs as [|r rs IH]; [reflexivity|].
  cbn. destruct r; cbn; [discriminate|]. exact IH.
Qed.

Lemma existsb_none (rs : list bool) :
  existsb (fun r => r) rs = false <-> forallb negb rs = true.
Proof.
  induction rs as [|r rs IH]; cbn; [tauto|].
  destruct r; cbn; [split; discriminate | exact IH].
Qed.

Lemma Pipe_lifetime_hits (cs : list Pipe.call) (p : Pipe.t) :
  (Pipe.hits (fst (Pipe.lifetime cs p)) <= 1)%nat.
Proof.
  revert p. induction cs as [|c cs IH]; intros p.
  - cbn. lia.
  - destruct c as [|birdX].
    + rewrite Pipe_lifetime_update. apply IH.
    + rewrite Pipe_lifetime_isPassed. cbn [fst].
      destruct (fst (Pipe.isPassed birdX p)) eqn:E.
      * unfold Pipe.hits. cbn [filter length]. fold (Pipe.hits (fst (Pipe.lifetime cs (snd (Pipe.isPassed birdX p))))).
        rewrite hits_none; [lia|].
        apply Pipe_lifetime_after_passed.
        rewrite Pipe_isPassed_passed, E, orb_true_r. reflexivity.
      * unfold Pipe.hits. cbn [filter]. apply IH.
Qed.

(** C3.  Over any life of a pipe (calls of [update] and of [isPassed]
    in any order and with any arguments) [isPassed] answers [true] at
    most once.  A call answers [true] exactly when [passed] is still
    false, which is when the pipe was created unpassed and no earlier
    call has answered [true], and [birdX > x + width] holds at the call;
    that call sets [passed], and every later call answers [false]
    whatever its argument. *)
Theorem Pipe_isPassed_one_shot (p : Pipe.t) (cs1 cs2 : list Pipe.call)
    (birdX : Qc) :
  let rs1 := fst (Pipe.lifetime cs1 p) in
  let p1 := snd (Pipe.lifetime cs1 p) in
  let r := fst (Pipe.isPassed birdX p1) in
  let p2 := snd (Pipe.isPassed birdX p1) in
  let rs2 := fst (Pipe.lifetime cs2 p2) in
  fst (Pipe.lifetime (cs1 ++ Pipe.IsPassed birdX :: cs2) p)
    = rs1 ++ r :: rs2 /\
  (Pipe.hits (rs1 ++ r :: rs2) <= 1)%nat /\
  (r = true <->
   Pipe.passed p1 = false /\ birdX > Pipe.x p1 + Pipe.width p1) /\
  (Pipe.passed p1 = false <->
   Pipe.passed p = false /\ forallb negb rs1 = true) /\
  (r = true -> p2 = Pipe.set_passed true p1 /\ forallb negb rs2 = true) /\
  (r = false -> p2 = p1).
Proof.
  cbv zeta.
  assert (Happ : fst (Pipe.lifetime (cs1 ++ Pipe.IsPassed birdX :: cs2) p)
    = fst (Pipe.lifetime cs1 p)
      ++ fst (Pipe.isPassed birdX (snd (Pipe.lifetime cs1 p)))
      :: fst (Pipe.lifetime cs2
                (snd (Pipe.isPassed birdX (snd (Pipe.lifetime cs1 p)))))).
  { rewrite Pipe_lifetime_app. cbn [fst].
    rewrite Pipe_lifetime_isPassed. reflexivity. }
  split; [exact Happ|].
  split; [rewrite <- Happ; apply Pipe_lifetime_hits|].
  split; [apply Pipe_isPassed_fst|].
  split.
  { rewrite Pipe_lifetime_passed, orb_false_iff, existsb_none. tauto. }
  split.
  - intros Hr. rewrite Pipe_isPassed_snd, Hr. split; [reflexivity|].
    apply Pipe_lifetime_after_passed. reflexivity.
  - intros Hr. rewrite Pipe_isPassed_snd, Hr. reflexivity.
Qed.

(** The scenario of the design document: a pipe at [x = 0], 72 wide;
    [isPassed(100)] answers true, then [isPassed(150)] answers false. *)
Example Pipe_isPassed_scenario :
  let p := Pipe.constructor (Q2Qc 400) (Q2Qc 700) 0 Pipe.defaultSettings
             (Q2Qc 0.5) in
  fst (Pipe.lifetime
         [Pipe.IsPassed (Q2Qc 100); Pipe.IsPassed (Q2Qc 150)] p)
  = [true; false].
Proof. vm_compute. reflexivity. Qed.

End PipeProperties.

(* ================================================================= *)
(** ** The collision detector *)

Section CollisionProperties.

Lemma Game_rectsIntersect_spec (a b : Rect.t) :
  Game.rectsIntersect a b = true <->
  Rect.x a < Rect.x b + Rect.width b /\
  Rect.x b < Rect.x a + Rect.width a /\
  Rect.y a < Rect.y b + Rect.height b /\
  Rect.y b < Rect.y a + Rect.height a.
Proof.
  unfold Game.rectsIntersect, Qcgtb.
  rewrite !andb_true_iff, !Qcltb_lt. tauto.
Qed.

(** C5.  [rectsIntersect] gives the same answer with its arguments
    exchanged, and two boxes that only share an edge, on either axis and
    on either side, do not intersect: the four comparisons are strict.
    As a function of its two arguments it has no effect to speak of. *)
Theorem Game_rectsIntersect_commutative_half_open (a b : Rect.t) :
  Game.rectsIntersect a b = Game.rectsIntersect b a /\
  (Rect.x a + Rect.width a = Rect.x b -> Game.rectsIntersect a b = false) /\
  (Rect.x b + Rect.width b = Rect.x a -> Game.rectsIntersect a b = false) /\
  (Rect.y a + Rect.height a = Rect.y b -> Game.rectsIntersect a b = false) /\
  (Rect.y b + Rect.height b = Rect.y a -> Game.rectsIntersect a b = false).
Proof.
  split.
  - unfold Game.rectsIntersect, Qcgtb.
    destruct (Qcltb (Rect.x a) (Rect.x b + Rect.width b));
      destruct (Qcltb (Rect.x b) (Rect.x a + Rect.width a));
      destruct (Qcltb (Rect.y a) (Rect.y b + Rect.height b));
      destruct (Qcltb (Rect.y b) (Rect.y a + Rect.height a));
      reflexivity.
  - repeat split; intros E;
      (destruct (Game.rectsIntersect a b) eqn:I; [exfalso|reflexivity]);
      apply Game_rectsIntersect_spec in I;
      destruct I as (I1 & I2 & I3 & I4);
      rewrite ?E in *;
      match goal with H : ?x < ?x |- _ => exact (Qclt_not_eq _ _ H eq_refl) end.
Qed.

(** Two boxes side by side, the second starting where the first ends. *)
Example Game_rectsIntersect_touching :
  let a := Rect.mk 0 0 (Q2Qc 10) (Q2Qc 10) in
  let b := Rect.mk (Q2Qc 10) 0 (Q2Qc 10) (Q2Qc 10) in
  let c := Rect.mk (Q2Qc 9.5) 0 (Q2Qc 10) (Q2Qc 10) in
  Game.rectsIntersect a b = false /\ Game.rectsIntersect b a = false /\
  Game.rectsIntersect a c = true /\ Game.rectsIntersect c a = true.
Proof. vm_compute. repeat split. Qed.

End CollisionProperties.

(* ================================================================= *)
(** ** The game: what each statement of [update] touches *)

Section GameFrames.

Lemma Game_scorePipes_spec (birdX : Qc) (ps : list Pipe.t) (s : Z) :
  Game.scorePipes birdX ps s =
  (map (fun p => snd (Pipe.isPassed birdX p)) ps,
   (s + Z.of_nat (length (filter (fun p => fst (Pipe.isPassed birdX p)) ps)))%Z).
Proof.
  revert s. induction ps as [|p ps IH]; intros s.
  - cbn. rewrite Z.add_0_r. reflexivity.
  - cbn [Game.scorePipes map filter].
    destruct (Pipe.isPassed birdX p) as [fired p'] eqn:E. cbn [fst snd].
    rewrite IH. destruct fired; cbn [length]; f_equal; lia.
Qed.

Lemma Game_checkScoring_pipes (g : Game.t) :
  Game.pipes (Game.checkScoring g) =
  map (fun p => snd (Pipe.isPassed (Bird.x (Game.bird g)) p)) (Game.pipes g).
Proof.
  unfold Game.checkScoring. rewrite Game_scorePipes_spec. reflexivity.
Qed.

Lemma Game_checkScoring_score (g : Game.t) :
  Game.score (Game.checkScoring g) =
  (Game.score g +
   Z.of_nat (length (filter (fun p => fst (Pipe.isPassed (Bird.x (Game.bird g)) p))
                            (Game.pipes g))))%Z.
Proof.
  unfold Game.checkScoring. rewrite Game_scorePipes_spec. reflexivity.
Qed.

Lemma Game_checkScoring_rest (g : Game.t) :
  Game.bird (Game.checkScoring g) = Game.bird g /\
  Game.frameCount (Game.checkScoring g) = Game.frameCount g /\
  Game.pipeGap (Game.checkScoring g) = Game.pipeGap g /\
  Game.canvasWidth (Game.checkScoring g) = Game.canvasWidth g /\
  Game.canvasHeight (Game.checkScoring g) = Game.canvasHeight g /\
  Game.isRunning (Game.checkScoring g) = Game.isRunning g /\
  Game.isGameOver (Game.checkScoring g) = Game.isGameOver g.
Proof.
  unfold Game.checkScoring. rewrite Game_scorePipes_spec. repeat split.
Qed.

Lemma Game_spawnPeriodically_rest (r : Qc) (g : Game.t) :
  Game.bird (Game.spawnPeriodically r g) = Game.bird g /\
  Game.frameCount (Game.spawnPeriodically r g) = Game.frameCount g /\
  Game.pipeGap (Game.spawnPeriodically r g) = Game.pipeGap g /\
  Game.canvasWidth (Game.spawnPeriodically r g) = Game.canvasWidth g /\
  Game.canvasHeight (Game.spawnPeriodically r g) = Game.canvasHeight g /\
  Game.score (Game.spawnPeriodically r g) = Game.score g /\
  Game.isRunning (Game.spawnPeriodically r g) = Game.isRunning g /\
  Game.isGameOver (Game.spawnPeriodically r g) = Game.isGameOver g.
Proof.
  unfold Game.spawnPeriodically. destruct (Game.spawnDue g); repeat split.
Qed.

Lemma Game_advance_unfold (r : Qc) (g : Game.t) :
  Game.advance r g = Game.checkScoring (Game.beforeScoring r g).
Proof. reflexivity. Qed.

Lemma Game_beforeScoring_bird (r : Qc) (g : Game.t) :
  Game.bird (Game.beforeScoring r g) = Bird.update (Game.bird g).
Proof.
  unfold Game.beforeScoring.
  destruct (Game_spawnPeriodically_rest r
    (Game.countFrame (Game.removeOffScreen (Game.updatePipes (Game.updateBird g)))))
    as (-> & _). reflexivity.
Qed.

Lemma Game_beforeScoring_pipes (r : Qc) (g : Game.t) :
  Game.pipes (Game.beforeScoring r g) =
  filter (fun pipe => negb (Pipe.isOffScreen pipe))
         (map Pipe.update (Game.pipes g)) ++
  (if Game.remIsZero (Game.frameCount g + 1) (Game.pipeGap g)
   then [Pipe.constructor (Game.canvasWidth g) (Game.canvasHeight g)
           (Game.canvasWidth g) Pipe.defaultSettings r]
   else []).
Proof.
  unfold Game.beforeScoring, Game.spawnPeriodically, Game.spawnDue.
  cbn [Game.countFrame Game.removeOffScreen Game.updatePipes Game.updateBird
       Game.set_frameCount Game.set_pipes Game.set_bird
       Game.frameCount Game.pipeGap Game.pipes].
  destruct (Game.remIsZero (Game.frameCount g + 1) (Game.pipeGap g)).
  - reflexivity.
  - cbn. rewrite app_nil_r. reflexivity.
Qed.

Lemma Game_beforeScoring_rest (r : Qc) (g : Game.t) :
  Game.frameCount (Game.beforeScoring r g) = (Game.frameCount g + 1)%Z /\
  Game.pipeGap (Game.beforeScoring r g) = Game.pipeGap g /\
  Game.canvasWidth (Game.beforeScoring r g) = Game.canvasWidth g /\
  Game.canvasHeight (Game.beforeScoring r g) = Game.canvasHeight g /\
  Game.score (Game.beforeScoring r g) = Game.score g /\
  Game.isRunning (Game.beforeScoring r g) = Game.isRunning g /\
  Game.isGameOver (Game.beforeScoring r g) = Game.isGameOver g.
Proof.
  unfold Game.beforeScoring.
  destruct (Game_spawnPeriodically_rest r
    (Game.countFrame (Game.removeOffScreen (Game.updatePipes (Game.updateBird g)))))
    as (_ & -> & -> & -> & -> & -> & -> & ->).
  repeat split.
Qed.

Lemma Game_advance_bird (r : Qc) (g : Game.t) :
  Game.bird (Game.advance r g) = Bird.update (Game.bird g).
Proof.
  rewrite Game_advance_unfold.
  destruct (Game_checkScoring_rest (Game.beforeScoring r g)) as (-> & _).
  apply Game_beforeScoring_bird.
Qed.

Lemma Game_advance_rest (r : Qc) (g : Game.t) :
  Game.frameCount (Game.advance r g) = (Game.frameCount g + 1)%Z /\
  Game.pipeGap (Game.advance r g) = Game.pipeGap g /\
  Game.canvasWidth (Game.advance r g) = Game.canvasWidth g /\
  Game.canvasHeight (Game.advance r g) = Game.canvasHeight g /\
  Game.isRunning (Game.advance r g) = Game.isRunning g /\
  Game.isGameOver (Game.advance r g) = Game.isGameOver g.
Proof.
  rewrite Game_advance_unfold.
  destruct (Game_checkScoring_rest (Game.beforeScoring r g))
    as (_ & -> & -> & -> & -> & -> & ->).
  destruct (Game_beforeScoring_rest r g) as (-> & -> & -> & -> & _ & -> & ->).
  repeat split.
Qed.

Lemma Game_advance_pipes (r : Qc) (g : Game.t) :
  Game.pipes (Game.advance r g) =
  map (fun p => snd (Pipe.isPassed (Bird.x (Game.bird g)) p))
      (Game.pipes (Game.beforeScoring r g)).
Proof.
  rewrite Game_advance_unfold, Game_checkScoring_pipes,
    Game_beforeScoring_bird, Bird_update_x. reflexivity.
Qed.

Lemma Game_firedBy_active (r : Qc) (g : Game.t) :
  Game.active g = true ->
  Game.firedBy r g =
  filter (fun p => fst (Pipe.isPassed (Bird.x (Game.bird g)) p))
         (Game.pipes (Game.beforeScoring r g)).
Proof.
  intros A. unfold Game.firedBy. rewrite A.
  cbv zeta. rewrite Game_beforeScoring_bird, Bird_update_x.
  reflexivity.
Qed.

Lemma Game_advance_score (r : Qc) (g : Game.t) :
  Game.active g = true ->
  Game.score (Game.advance r g) =
  (Game.score g + Z.of_nat (length (Game.firedBy r g)))%Z.
Proof.
  intros A. rewrite Game_firedBy_active by exact A.
  rewrite Game_advance_unfold, Game_checkScoring_score,
    Game_beforeScoring_bird, Bird_update_x.
  destruct (Game_beforeScoring_rest r g) as (_ & _ & _ & _ & -> & _).
  reflexivity.
Qed.

Lemma Game_update_inactive (r : Qc) (g : Game.t) :
  Game.active g = false -> Game.update r g = g.
Proof.
  unfold Game.active, Game.update.
  destruct (negb (Game.isRunning g) || Game.isGameOver g); [reflexivity|discriminate].
Qed.

Lemma Game_update_active (r : Qc) (g : Game.t) :
  Game.active g = true ->
  Game.update r g =
  if Game.checkCollisions (Game.advance r g)
  then Game.gameOver (Game.advance r g)
  else Game.advance r g.
Proof.
  unfold Game.active, Game.update.
  destruct (negb (Game.isRunning g) || Game.isGameOver g); [discriminate|reflexivity].
Qed.

Lemma Game_active_iff (g : Game.t) :
  Game.active g = true <-> Game.isRunning g = true /\ Game.isGameOver g = false.
Proof.
  unfold Game.active.
  destruct (Game.isRunning g), (Game.isGameOver g); cbn; intuition congruence.
Qed.

(** What [update] leaves of the state besides the two flags. *)
Lemma Game_update_fields (r : Qc) (g : Game.t) :
  Game.active g = true ->
  Game.bird (Game.update r g) = Bird.update (Game.bird g) /\
  Game.pipes (Game.update r g) = Game.pipes (Game.advance r g) /\
  Game.score (Game.update r g) = Game.score (Game.advance r g) /\
  Game.frameCount (Game.update r g) = (Game.frameCount g + 1)%Z /\
  Game.pipeGap (Game.update r g) = Game.pipeGap g /\
  Game.canvasWidth (Game.update r g) = Game.canvasWidth g /\
  Game.canvasHeight (Game.update r g) = Game.canvasHeight g.
Proof.
  intros A. rewrite Game_update_active by exact A.
  destruct (Game_advance_rest r g) as (F & P & W & H & _).
  pose proof (Game_advance_bird r g) as B.
  destruct (Game.checkCollisions (Game.advance r g)); cbn; auto 10.
Qed.

End GameFrames.

(* ================================================================= *)
(** ** The game: invariants of the reachable states *)

Section GameInvariants.

Lemma of_N_nonneg (n : N) : 0 <= of_N n.
Proof.
  unfold of_N, Qcle. rewrite !this_Q2Qc.
  change 0%Q with (inject_Z 0). rewrite <- Zle_Qle. lia.
Qed.

Lemma Game_constructor_consistent (width height : N) :
  Game.consistent (Game.constructor width height).
Proof.
  constructor; cbn; try reflexivity; try lia; try constructor.
  apply of_N_nonneg.
Qed.

Lemma Pipe_constructor_standard (cw ch x r : Qc) :
  Game.standard (Pipe.constructor cw ch x Pipe.defaultSettings r).
Proof. split; reflexivity. Qed.

Lemma Game_startGame_consistent (r : Qc) (g : Game.t) :
  Game.consistent g -> Game.consistent (Game.startGame r g).
Proof.
  intros [HB HX HG HW HF HS HP HQ HE].
  constructor; cbn; auto; try lia.
  - constructor; [apply Pipe_constructor_standard | constructor].
  - constructor; [|constructor].
    right. cbn. qc_lra.
Qed.

Lemma Game_flap_consistent (g : Game.t) :
  Game.consistent g ->
  Game.consistent (Game.set_bird (Bird.flap (Game.bird g)) g).
Proof.
  intros [HB HX HG HW HF HS HP HQ HE]. constructor; cbn; auto.
Qed.

Lemma Game_gameOver_consistent (g : Game.t) :
  Game.consistent g -> Game.consistent (Game.gameOver g).
Proof.
  intros [HB HX HG HW HF HS HP HQ HE].
  constructor; cbn; auto; discriminate.
Qed.

(** One step to the left, the filter and the scoring loop keep a
    settled pipe settled when the pipe is no faster than the bird is far
    from the left edge. *)
Lemma Pipe_settled_step (birdX : Qc) (p : Pipe.t) :
  Pipe.speed p <= birdX ->
  Pipe.isOffScreen (Pipe.update p) = false ->
  Game.settled (snd (Pipe.isPassed birdX (Pipe.update p))).
Proof.
  intros Hs Hon. unfold Game.settled.
  rewrite Pipe_isPassed_passed.
  destruct (Pipe_isPassed_geometry birdX (Pipe.update p)) as (-> & -> & ->).
  destruct (Pipe.passed (Pipe.update p)) eqn:P; [left; reflexivity|].
  destruct (fst (Pipe.isPassed birdX (Pipe.update p))) eqn:F; [left; reflexivity|].
  right.
  assert (N : ~ birdX > Pipe.x (Pipe.update p) + Pipe.width (Pipe.update p)).
  { intros C. assert (T : fst (Pipe.isPassed birdX (Pipe.update p)) = true)
      by (apply Pipe_isPassed_fst; split; assumption).
    congruence. }
  apply Qcnot_lt_le in N.
  eapply Qcle_trans; [exact Hs | exact N].
Qed.

(** So does a pipe fresh from [spawnPipe]. *)
Lemma Pipe_settled_fresh (birdX cw ch r : Qc) :
  Q2Qc 1.45 <= birdX ->
  Game.settled
    (snd (Pipe.isPassed birdX
            (Pipe.constructor cw ch cw Pipe.defaultSettings r))).
Proof.
  intros Hs. unfold Game.settled.
  set (p := Pipe.constructor cw ch cw Pipe.defaultSettings r).
  rewrite Pipe_isPassed_passed.
  destruct (Pipe_isPassed_geometry birdX p) as (-> & -> & ->).
  destruct (fst (Pipe.isPassed birdX p)) eqn:F;
    [left; apply orb_true_r|].
  right.
  assert (N : ~ birdX > Pipe.x p + Pipe.width p).
  { intros C. assert (T : fst (Pipe.isPassed birdX p) = true)
      by (apply Pipe_isPassed_fst; split; [reflexivity | assumption]).
    congruence. }
  apply Qcnot_lt_le in N.
  eapply Qcle_trans; [exact Hs | exact N].
Qed.

Lemma Pipe_standard_step (birdX : Qc) (p : Pipe.t) :
  Game.standard p ->
  Game.standard (snd (Pipe.isPassed birdX (Pipe.update p))).
Proof.
  intros [S W]. unfold Game.standard.
  destruct (Pipe_isPassed_geometry birdX (Pipe.update p)) as (_ & -> & ->).
  split; assumption.
Qed.

Lemma Forall_map_filter {A B : Type} (P : A -> Prop) (Q : B -> Prop)
    (f : A -> B) (keep : A -> bool) (l : list A) :
  (forall a, P a -> keep a = true -> Q (f a)) ->
  Forall P l -> Forall Q (map f (filter keep l)).
Proof.
  intros H F. induction F as [|a l Pa _ IH]; cbn; [constructor|].
  destruct (keep a) eqn:K; cbn; [constructor; auto | exact IH].
Qed.

Lemma Game_advance_consistent (r : Qc) (g : Game.t) :
  Game.active g = true ->
  Game.consistent g -> Game.consistent (Game.advance r g).
Proof.
  intros A [HB HX HG HW HF HS HP HQ HE].
  destruct (Game_advance_rest r g) as (F & P & W & H & R & O).
  pose proof (Game_advance_bird r g) as B.
  assert (Hspeed : Q2Qc 1.45 <= Bird.x (Game.bird g))
    by (rewrite HX; unfold Qcle; vm_compute; discriminate).
  constructor.
  - rewrite B, H, Bird_update_canvasHeight. exact HB.
  - rewrite B, Bird_update_x. exact HX.
  - rewrite P. exact HG.
  - rewrite W. exact HW.
  - rewrite F. lia.
  - rewrite Game_advance_score by exact A. lia.
  - rewrite Game_advance_pipes, Game_beforeScoring_pipes, map_app.
    apply Forall_app. split.
    + rewrite Forall_forall in HP.
      apply Forall_forall. intros q Hq.
      apply in_map_iff in Hq. destruct Hq as (p' & <- & Hp').
      apply filter_In in Hp'. destruct Hp' as [Hp' _].
      apply in_map_iff in Hp'. destruct Hp' as (p & <- & Hp).
      apply Pipe_standard_step. apply HP. exact Hp.
    + destruct (Game.remIsZero _ _); cbn; constructor; [|constructor].
      unfold Game.standard.
      destruct (Pipe_isPassed_geometry (Bird.x (Game.bird g))
        (Pipe.constructor (Game.canvasWidth g) (Game.canvasHeight g)
           (Game.canvasWidth g) Pipe.defaultSettings r)) as (_ & -> & ->).
      split; reflexivity.
  - rewrite Game_advance_pipes, Game_beforeScoring_pipes, map_app.
    apply Forall_app. split.
    + rewrite Forall_forall in HP.
      apply Forall_forall. intros q Hq.
      apply in_map_iff in Hq. destruct Hq as (p' & <- & Hp').
      apply filter_In in Hp'. destruct Hp' as [Hp' Hon].
      apply in_map_iff in Hp'. destruct Hp' as (p & <- & Hp).
      apply Pipe_settled_step.
      * destruct (HP p Hp) as [-> _]. exact Hspeed.
      * apply negb_true_iff. exact Hon.
    + destruct (Game.remIsZero _ _); cbn; constructor; [|constructor].
      apply Pipe_settled_fresh. exact Hspeed.
  - rewrite R, O. exact HE.
Qed.

Lemma Game_update_consistent (r : Qc) (g : Game.t) :
  Game.consistent g -> Game.consistent (Game.update r g).
Proof.
  intros C. destruct (Game.active g) eqn:A.
  - rewrite Game_update_active by exact A.
    pose proof (Game_advance_consistent r g A C) as C'.
    destruct (Game.checkCollisions (Game.advance r g));
      [apply Game_gameOver_consistent|]; exact C'.
  - rewrite Game_update_inactive by exact A. exact C.
Qed.

Lemma Game_handle_consistent (e : Game.event) (g : Game.t) :
  Game.consistent g -> Game.consistent (Game.handle e g).
Proof.
  intros C. destruct e as [r|code r| |r|r]; cbn [Game.handle].
  - apply Game_update_consistent. exact C.
  - unfold Game.keydown.
    destruct (Game.isSpaceOrEnter code && _).
    + destruct (Game.isGameOver g); apply Game_startGame_consistent; exact C.
    + destruct (Game.isSpace code && Game.isRunning g && negb (Game.isGameOver g));
        [apply Game_flap_consistent|]; exact C.
  - unfold Game.click.
    destruct (Game.isRunning g && negb (Game.isGameOver g));
      [apply Game_flap_consistent|]; exact C.
  - apply Game_startGame_consistent. exact C.
  - apply Game_startGame_consistent. exact C.
Qed.

Lemma Game_run_consistent (es : list Game.event) (g : Game.t) :
  Game.consistent g -> Game.consistent (Game.run es g).
Proof.
  revert g. induction es as [|e es IH]; intros g C; cbn; [exact C|].
  apply IH, Game_handle_consistent, C.
Qed.

(** Every state the game reaches from its constructor is consistent. *)
Lemma Game_reachable_consistent (width height : N) (es : list Game.event) :
  Game.consistent (Game.run es (Game.constructor width height)).
Proof. apply Game_run_consistent, Game_constructor_consistent. Qed.

End GameInvariants.

(* ================================================================= *)
(** ** The clamp of the bird and the ground/ceiling test *)

Section ClampAndCollision.

Lemma Game_clamp_hits (r : Qc) (g : Game.t) :
  Bird.canvasHeight (Game.bird g) = Game.canvasHeight g ->
  Bird.clamps (Game.bird g) = true ->
  Game.hitsGroundOrCeiling (Game.advance r g) = true.
Proof.
  intros HB HC.
  unfold Game.hitsGroundOrCeiling.
  destruct (Game_advance_rest r g) as (_ & _ & _ & -> & _).
  rewrite Game_advance_bird, Bird_update_height.
  apply orb_true_iff.
  destruct (Bird_clamps_position _ HC) as [-> | ->].
  - left. unfold Qcgeb. apply negb_true_iff, Qcltb_ge.
    rewrite <- HB. qc_lra.
  - right. unfold Qcleb. apply negb_true_iff, Qcltb_ge. apply Qcle_refl.
Qed.

(** C8.  In every state the game reaches, a frame in which
    [Bird.update] takes one of its clamps, leaving the bird at
    [y = canvasHeight - height] or at [y = 0], is a frame in which the
    ground/ceiling test of [checkCollisions] holds: [checkCollisions]
    returns true and [update] ends the game. *)
Theorem Game_clamp_implies_collision (width height : N)
    (es : list Game.event) (r : Qc) :
  let g := Game.run es (Game.constructor width height) in
  Game.active g = true ->
  Bird.clamps (Game.bird g) = true ->
  (Bird.y (Game.bird (Game.advance r g))
     = Game.canvasHeight g - Bird.height (Game.bird g) \/
   Bird.y (Game.bird (Game.advance r g)) = 0) /\
  Game.hitsGroundOrCeiling (Game.advance r g) = true /\
  Game.checkCollisions (Game.advance r g) = true /\
  Game.isGameOver (Game.update r g) = true /\
  Game.isRunning (Game.update r g) = false.
Proof.
  intros g A HC.
  pose proof (Game_reachable_consistent width height es) as C.
  fold g in C. destruct C as [HB _ _ _ _ _ _ _ _].
  pose proof (Game_clamp_hits r g HB HC) as Hit.
  assert (Col : Game.checkCollisions (Game.advance r g) = true)
    by (unfold Game.checkCollisions; rewrite Hit; reflexivity).
  split; [|split; [exact Hit | split; [exact Col|]]].
  - rewrite Game_advance_bird, <- HB. apply Bird_clamps_position, HC.
  - rewrite Game_update_active by exact A. rewrite Col. split; reflexivity.
Qed.

(** The bird of a game on the canvas of 400 by 700, left to fall from
    the start: the 57th frame clamps it to the floor. *)
Lemma Game_clamp_implies_collision_witness :
  let es := Game.StartButton (Q2Qc 0.5) :: repeat (Game.Frame (Q2Qc 0.5)) 56 in
  let g := Game.run es (Game.constructor 400 700) in
  Game.active g = true /\
  Bird.clamps (Game.bird g) = true /\
  Game.checkCollisions (Game.advance (Q2Qc 0.5) g) = true /\
  Game.isGameOver (Game.update (Q2Qc 0.5) g) = true.
Proof.
  cbv zeta.
  assert (A : Game.active
    (Game.run (Game.StartButton (Q2Qc 0.5) :: repeat (Game.Frame (Q2Qc 0.5)) 56)
       (Game.constructor 400 700)) = true) by (vm_compute; reflexivity).
  assert (K : Bird.clamps (Game.bird
    (Game.run (Game.StartButton (Q2Qc 0.5) :: repeat (Game.Frame (Q2Qc 0.5)) 56)
       (Game.constructor 400 700))) = true) by (vm_compute; reflexivity).
  split; [exact A | split; [exact K|]].
  pose proof (Game_clamp_implies_collision 400 700
    (Game.StartButton (Q2Qc 0.5) :: repeat (Game.Frame (Q2Qc 0.5)) 56)
    (Q2Qc 0.5) A K) as (_ & _ & Col & Over & _).
  split; [exact Col | exact Over].
Defined.

End ClampAndCollision.

(* ================================================================= *)
(** ** The score *)

Section ScoreProperties.

Lemma passedCount_app (l1 l2 : list Pipe.t) :
  Game.passedCount (l1 ++ l2) = (Game.passedCount l1 + Game.passedCount l2)%Z.
Proof.
  unfold Game.passedCount. rewrite filter_app, length_app. lia.
Qed.

Lemma passedCount_update (l : list Pipe.t) :
  Game.passedCount (map Pipe.update l) = Game.passedCount l.
Proof.
  unfold Game.passedCount. f_equal.
  induction l as [|p l IH]; [reflexivity|].
  cbn [map filter]. change (Pipe.passed (Pipe.update p)) with (Pipe.passed p).
  destruct (Pipe.passed p); cbn [length]; rewrite IH; reflexivity.
Qed.

Lemma passedCount_split (keep : Pipe.t -> bool) (l : list Pipe.t) :
  Game.passedCount l =
  (Game.passedCount (filter (fun p => negb (keep p)) l) +
   Game.passedCount (filter keep l))%Z.
Proof.
  unfold Game.passedCount.
  induction l as [|p l IH]; [reflexivity|].
  cbn [filter]. destruct (keep p); cbn [negb filter];
    destruct (Pipe.passed p); cbn [length]; lia.
Qed.

(** The scoring loop sets the flag of exactly the pipes that fire. *)
Lemma passedCount_scored (birdX : Qc) (l : list Pipe.t) :
  Game.passedCount (map (fun p => snd (Pipe.isPassed birdX p)) l) =
  (Game.passedCount l +
   Z.of_nat (length (filter (fun p => fst (Pipe.isPassed birdX p)) l)))%Z.
Proof.
  unfold Game.passedCount.
  induction l as [|p l IH]; [reflexivity|].
  cbn [map filter]. rewrite Pipe_isPassed_passed.
  destruct (fst (Pipe.isPassed birdX p)) eqn:F.
  - apply Pipe_isPassed_fst in F. destruct F as [-> _].
    cbn [orb length]. lia.
  - rewrite orb_false_r. destruct (Pipe.passed p); cbn [length]; lia.
Qed.

Lemma Game_droppedBy_active (g : Game.t) :
  Game.active g = true ->
  Game.droppedBy g = filter Pipe.isOffScreen (map Pipe.update (Game.pipes g)).
Proof. intros A. unfold Game.droppedBy. rewrite A. reflexivity. Qed.

Lemma Game_beforeScoring_passedCount (r : Qc) (g : Game.t) :
  Game.active g = true ->
  (Game.passedCount (Game.pipes (Game.beforeScoring r g)) +
   Game.passedCount (Game.droppedBy g))%Z = Game.passedCount (Game.pipes g).
Proof.
  intros A.
  rewrite Game_beforeScoring_pipes, Game_droppedBy_active by exact A.
  rewrite passedCount_app.
  rewrite <- (passedCount_update (Game.pipes g)).
  rewrite (passedCount_split Pipe.isOffScreen (map Pipe.update (Game.pipes g))).
  destruct (Game.remIsZero _ _); cbn; lia.
Qed.

Lemma Game_update_score (r : Qc) (g : Game.t) :
  Game.active g = true ->
  Game.score (Game.update r g) =
  (Game.score g + Z.of_nat (length (Game.firedBy r g)))%Z.
Proof.
  intros A.
  destruct (Game_update_fields r g A) as (_ & _ & -> & _).
  apply Game_advance_score, A.
Qed.

Lemma Game_update_passedCount (r : Qc) (g : Game.t) :
  Game.active g = true ->
  Game.passedCount (Game.pipes (Game.update r g)) =
  (Game.passedCount (Game.pipes (Game.beforeScoring r g)) +
   Z.of_nat (length (Game.firedBy r g)))%Z.
Proof.
  intros A.
  destruct (Game_update_fields r g A) as (_ & -> & _).
  rewrite Game_advance_pipes, passedCount_scored.
  rewrite Game_firedBy_active by exact A. reflexivity.
Qed.

Lemma Game_firedBy_unpassed (r : Qc) (g : Game.t) (p : Pipe.t) :
  In p (Game.firedBy r g) ->
  In p (Game.pipes (Game.beforeScoring r g)) /\
  Pipe.passed p = false /\
  Bird.x (Game.bird g) > Pipe.x p + Pipe.width p.
Proof.
  destruct (Game.active g) eqn:A.
  - rewrite Game_firedBy_active by exact A. intros I.
    apply filter_In in I. destruct I as [I F].
    apply Pipe_isPassed_fst in F. tauto.
  - unfold Game.firedBy. rewrite A. intros [].
Qed.

Lemma Game_handle_starts (e : Game.event) (g : Game.t) :
  Game.startsGame e g = true ->
  exists r, Game.handle e g = Game.startGame r g.
Proof.
  destruct e as [r|code r| |r|r]; cbn; try discriminate; intros S.
  - exists r. unfold Game.keydown. rewrite S.
    destruct (Game.isGameOver g); reflexivity.
  - exists r. reflexivity.
  - exists r. reflexivity.
Qed.

(** An event that is neither a frame nor a start changes the bird at
    most. *)
Lemma Game_handle_other (e : Game.event) (g : Game.t) :
  Game.startsGame e g = false -> Game.isFrame e = false ->
  Game.handle e g = g \/
  Game.handle e g = Game.set_bird (Bird.flap (Game.bird g)) g.
Proof.
  destruct e as [r|code r| |r|r]; cbn; try discriminate; intros S _.
  - unfold Game.keydown. rewrite S.
    destruct (Game.isSpace code && Game.isRunning g && negb (Game.isGameOver g));
      auto.
  - unfold Game.click.
    destruct (Game.isRunning g && negb (Game.isGameOver g)); auto.
Qed.

Lemma Game_handle_score_monotone (e : Game.event) (g : Game.t) :
  Game.startsGame e g = false ->
  (Game.score g <= Game.score (Game.handle e g))%Z.
Proof.
  intros S. destruct (Game.isFrame e) eqn:F.
  - destruct e as [r|code r| |r|r]; try discriminate. cbn [Game.handle].
    destruct (Game.active g) eqn:A.
    + rewrite Game_update_score by exact A. lia.
    + rewrite Game_update_inactive by exact A. lia.
  - destruct (Game_handle_other e g S F) as [-> | ->]; cbn; lia.
Qed.

(** The score is the number of passed pipes, on screen or dropped. *)
Lemma Game_runLogged_accounting (es : list Game.event) (g : Game.t)
    (log : list Pipe.t) :
  Game.score g = (Game.passedCount (Game.pipes g) + Game.passedCount log)%Z ->
  let st := Game.runLogged es g log in
  fst st = Game.run es g /\
  Game.score (fst st) =
    (Game.passedCount (Game.pipes (fst st)) + Game.passedCount (snd st))%Z.
Proof.
  revert g log. induction es as [|e es IH]; intros g log J; cbn zeta.
  - cbn. auto.
  - cbn [Game.runLogged Game.run]. apply IH.
    destruct (Game.startsGame e g) eqn:S.
    + destruct (Game_handle_starts e g S) as [r ->].
      assert (L : Game.logged e g log = []).
      { destruct e; cbn in S |- *; try discriminate; rewrite ?S; reflexivity. }
      rewrite L. reflexivity.
    + destruct (Game.isFrame e) eqn:F.
      * destruct e as [r|code r| |r|r]; try discriminate.
        cbn [Game.handle Game.logged].
        destruct (Game.active g) eqn:A.
        -- rewrite Game_update_score, Game_update_passedCount by exact A.
           rewrite passedCount_app.
           pose proof (Game_beforeScoring_passedCount r g A). lia.
        -- rewrite Game_update_inactive by exact A.
           unfold Game.droppedBy. rewrite A, app_nil_r. exact J.
      * assert (L : Game.logged e g log = log).
        { destruct e; cbn in S, F |- *; try discriminate; rewrite ?S; reflexivity. }
        rewrite L.
        destruct (Game_handle_other e g S F) as [-> | ->]; exact J.
Qed.

(** C4.  [startGame] leaves the score at 0, and so does every event
    that starts a game.  Within a run the score changes in [update]
    only, and there only past the guard: a frame of a game that is not
    running or is over changes nothing, and an event that is not a frame
    leaves the score as it is.  A frame of a running game adds one for
    each pipe whose [isPassed] returns true, these are pipes that were
    not passed before and are passed afterwards, so the score never goes
    down.  From the constructor on, the score is never negative and is
    the number of passed pipes of the current run, those on screen and
    those dropped by the off-screen filter: one per pipe passed. *)
Theorem Game_score_counts_passes :
  (forall r g, Game.score (Game.startGame r g) = 0%Z) /\
  (forall e g, Game.startsGame e g = true ->
     Game.score (Game.handle e g) = 0%Z) /\
  (forall e g, Game.startsGame e g = false -> Game.isFrame e = false ->
     Game.score (Game.handle e g) = Game.score g) /\
  (forall r g, Game.active g = false -> Game.update r g = g) /\
  (forall r g, Game.active g = true ->
     Game.score (Game.update r g) =
       (Game.score g + Z.of_nat (length (Game.firedBy r g)))%Z /\
     Game.passedCount (Game.pipes (Game.update r g)) =
       (Game.passedCount (Game.pipes (Game.beforeScoring r g)) +
        Z.of_nat (length (Game.firedBy r g)))%Z /\
     (forall p, In p (Game.firedBy r g) ->
        In p (Game.pipes (Game.beforeScoring r g)) /\
        Pipe.passed p = false /\
        Bird.x (Game.bird g) > Pipe.x p + Pipe.width p)) /\
  (forall e g, Game.startsGame e g = false ->
     (Game.score g <= Game.score (Game.handle e g))%Z) /\
  (forall width height es,
     let st := Game.runLogged es (Game.constructor width height) [] in
     fst st = Game.run es (Game.constructor width height) /\
     (0 <= Game.score (fst st))%Z /\
     Game.score (fst st) =
       (Game.passedCount (Game.pipes (fst st)) + Game.passedCount (snd st))%Z).
Proof.
  split; [reflexivity|].
  split.
  { intros e g S. destruct (Game_handle_starts e g S) as [r ->]. reflexivity. }
  split.
  { intros e g S F. destruct (Game_handle_other e g S F) as [-> | ->]; reflexivity. }
  split; [exact Game_update_inactive|].
  split.
  { intros r g A. split; [apply Game_update_score, A|].
    split; [apply Game_update_passedCount, A|].
    intros p. apply Game_firedBy_unpassed. }
  split; [exact Game_handle_score_monotone|].
  intros width height es st.
  destruct (Game_runLogged_accounting es (Game.constructor width height) []
              eq_refl) as [R J].
  fold st in R, J. split; [exact R|]. split; [|exact J].
  rewrite R. apply Game.score_nonneg, Game_reachable_consistent.
Qed.

End ScoreProperties.

(* ================================================================= *)
(** ** The spawn cadence *)

Section SpawnCadence.

Lemma Game_frames_cons (e : Game.event) (es : list Game.event) :
  Game.frames (e :: es) =
  ((if Game.isFrame e then 1 else 0) + Game.frames es)%Z.
Proof.
  unfold Game.frames. cbn [filter].
  destruct (Game.isFrame e); cbn [length]; lia.
Qed.

Lemma Game_frames_nonneg (es : list Game.event) : (0 <= Game.frames es)%Z.
Proof. unfold Game.frames. lia. Qed.

Lemma Game_remIsZero_small (a b : Z) :
  (0 < a < b)%Z -> Game.remIsZero a b = false.
Proof.
  intros H. unfold Game.remIsZero.
  rewrite Z.rem_small by lia.
  apply andb_false_iff. right. apply Z.eqb_neq. lia.
Qed.

Lemma Game_remIsZero_same (a : Z) :
  (0 < a)%Z -> Game.remIsZero a a = true.
Proof.
  intros H. unfold Game.remIsZero.
  rewrite Z.rem_same by lia.
  apply andb_true_iff. split; [apply negb_true_iff, Z.eqb_neq; lia | reflexivity].
Qed.

Lemma Game_update_pipes_length (r : Qc) (g : Game.t) :
  Game.active g = true ->
  length (Game.pipes (Game.update r g)) =
  length (Game.pipes (Game.beforeScoring r g)).
Proof.
  intros A. destruct (Game_update_fields r g A) as (_ & -> & _).
  rewrite Game_advance_pipes. apply length_map.
Qed.

Lemma filter_length_le {A : Type} (f : A -> bool) (l : list A) :
  (length (filter f l) <= length l)%nat.
Proof.
  induction l as [|a l IH]; cbn; [lia|].
  destruct (f a); cbn; lia.
Qed.

(** A frame that does not reach a multiple of [pipeGap] adds no pipe. *)
Lemma Game_update_no_spawn (r : Qc) (g : Game.t) :
  (0 <= Game.frameCount g)%Z ->
  (Game.frameCount g + 1 < Game.pipeGap g)%Z ->
  (length (Game.pipes (Game.update r g)) <= length (Game.pipes g))%nat.
Proof.
  intros F0 F1. destruct (Game.active g) eqn:A.
  - rewrite Game_update_pipes_length by exact A.
    rewrite Game_beforeScoring_pipes.
    rewrite Game_remIsZero_small by lia.
    rewrite app_nil_r.
    etransitivity; [apply filter_length_le|]. rewrite length_map. lia.
  - rewrite Game_update_inactive by exact A. lia.
Qed.

(** What an event that does not start a game does to the counters. *)
Lemma Game_sameRun_handle (e : Game.event) (g : Game.t) :
  Game.startsGame e g = false ->
  Game.pipeGap (Game.handle e g) = Game.pipeGap g /\
  Game.canvasWidth (Game.handle e g) = Game.canvasWidth g /\
  Game.canvasHeight (Game.handle e g) = Game.canvasHeight g /\
  (Game.active (Game.handle e g) = true -> Game.active g = true) /\
  Game.frameCount (Game.handle e g) =
    (Game.frameCount g + if Game.isFrame e && Game.active g then 1 else 0)%Z /\
  (Game.isFrame e = false -> Game.pipes (Game.handle e g) = Game.pipes g).
Proof.
  intros S. destruct (Game.isFrame e) eqn:Fe.
  - destruct e as [r|code r| |r|r]; try discriminate. cbn [Game.handle].
    destruct (Game.active g) eqn:A.
    + destruct (Game_update_fields r g A) as (_ & _ & _ & F & P & W & H).
      rewrite F, P, W, H. cbn. repeat split; auto; discriminate.
    + rewrite Game_update_inactive by exact A. rewrite A. cbn.
      rewrite Z.add_0_r. repeat split; auto; try discriminate.
  - cbn [andb]. rewrite Z.add_0_r.
    destruct (Game_handle_other e g S Fe) as [-> | ->]; repeat split; auto.
Qed.

Lemma Game_sameRun_run (es : list Game.event) (g : Game.t) :
  Game.sameRun es g = true ->
  Game.pipeGap (Game.run es g) = Game.pipeGap g /\
  Game.canvasWidth (Game.run es g) = Game.canvasWidth g /\
  Game.canvasHeight (Game.run es g) = Game.canvasHeight g /\
  (Game.frameCount g <= Game.frameCount (Game.run es g)
     <= Game.frameCount g + Game.frames es)%Z /\
  (Game.active (Game.run es g) = true ->
   Game.active g = true /\
   Game.frameCount (Game.run es g) = (Game.frameCount g + Game.frames es)%Z) /\
  ((0 <= Game.frameCount g)%Z ->
   (Game.frameCount g + Game.frames es < Game.pipeGap g)%Z ->
   (length (Game.pipes (Game.run es g)) <= length (Game.pipes g))%nat).
Proof.
  revert g. induction es as [|e es IH]; intros g W.
  - cbn [Game.run]. unfold Game.frames. cbn.
    repeat split; auto; lia.
  - cbn [Game.sameRun] in W. apply andb_true_iff in W. destruct W as [We Wes].
    apply negb_true_iff in We.
    cbn [Game.run]. rewrite Game_frames_cons.
    destruct (Game_sameRun_handle e g We) as (P & CW & CH & A & F & K).
    destruct (IH (Game.handle e g) Wes) as (P' & CW' & CH' & F' & A' & L').
    rewrite P', CW', CH', P, CW, CH.
    split; [reflexivity|]. split; [reflexivity|]. split; [reflexivity|].
    assert (B : (0 <= (if Game.isFrame e && Game.active g then 1 else 0)
                   <= (if Game.isFrame e then 1 else 0))%Z)
      by (destruct (Game.isFrame e), (Game.active g); cbn; lia).
    split; [lia|]. split.
    + intros Act. destruct (A' Act) as [Ah Fh].
      pose proof (A Ah) as Ag. split; [exact Ag|].
      rewrite Fh, F, Ag, andb_true_r. lia.
    + intros F0 F1.
      etransitivity; [apply L'; rewrite ?P; lia|].
      destruct (Game.isFrame e) eqn:Fe.
      * destruct e as [r|code r| |r|r]; try discriminate.
        cbn [Game.handle]. apply Game_update_no_spawn; [exact F0|].
        pose proof (Game_frames_nonneg es). lia.
      * rewrite (K eq_refl). lia.
Qed.

(** C6.  [startGame] leaves [frameCount] at 0 and exactly one pipe, at
    [x = canvasWidth].  With [pipeGap = 300], over the events that
    follow in the same run: [frameCount] counts the frames of the
    running game; as long as at most 299 frames have been played no
    second pipe is there;
    a frame of the running game that is among the first 299 spawns
    nothing (its pipes before the scoring loop are the survivors of the
    filter), and the frame that takes the counter to 300 appends a new
    pipe at [x = canvasWidth]. *)
Theorem Game_first_spawn_at_300 (g0 : Game.t) (r0 : Qc)
    (es : list Game.event) :
  Game.pipeGap g0 = 300%Z ->
  Game.sameRun es (Game.startGame r0 g0) = true ->
  let g1 := Game.startGame r0 g0 in
  let g := Game.run es g1 in
  let survivors :=
    filter (fun pipe => negb (Pipe.isOffScreen pipe))
           (map Pipe.update (Game.pipes g)) in
  (Game.frameCount g1 = 0%Z /\
   Game.pipes g1 =
     [Pipe.constructor (Game.canvasWidth g0) (Game.canvasHeight g0)
        (Game.canvasWidth g0) Pipe.defaultSettings r0] /\
   Game.active g1 = true) /\
  (0 <= Game.frameCount g <= Game.frames es)%Z /\
  (Game.active g = true -> Game.frameCount g = Game.frames es) /\
  ((Game.frames es <= 299)%Z -> (length (Game.pipes g) <= 1)%nat) /\
  (forall r, Game.active g = true -> (Game.frames es < 299)%Z ->
     Game.pipes (Game.beforeScoring r g) = survivors /\
     (length (Game.pipes (Game.update r g)) <= 1)%nat) /\
  (forall r, Game.active g = true -> Game.frames es = 299%Z ->
     Game.frameCount (Game.update r g) = 300%Z /\
     Game.pipes (Game.beforeScoring r g) =
       survivors ++
       [Pipe.constructor (Game.canvasWidth g0) (Game.canvasHeight g0)
          (Game.canvasWidth g0) Pipe.defaultSettings r] /\
     length (Game.pipes (Game.update r g)) = S (length survivors)).
Proof.
  intros HG W g1 g survivors.
  destruct (Game_sameRun_run es g1 W) as (P & CW & CH & F & A & L).
  fold g in P, CW, CH, F, A, L.
  change (Game.frameCount g1) with 0%Z in *.
  change (Game.pipeGap g1) with (Game.pipeGap g0) in *.
  change (Game.canvasWidth g1) with (Game.canvasWidth g0) in *.
  change (Game.canvasHeight g1) with (Game.canvasHeight g0) in *.
  rewrite HG in *.
  split; [repeat split|].
  split; [lia|].
  split; [intros Act; destruct (A Act) as [_ ->]; lia|].
  split; [intros Fr; etransitivity; [apply L; lia | cbn; lia]|].
  split.
  - intros r Act Fr. destruct (A Act) as [_ Fc].
    assert (E : Game.pipes (Game.beforeScoring r g) = survivors).
    { rewrite Game_beforeScoring_pipes, P, Fc.
      rewrite Game_remIsZero_small by (pose proof (Game_frames_nonneg es); lia).
      apply app_nil_r. }
    split; [exact E|].
    rewrite Game_update_pipes_length, E by exact Act.
    unfold survivors.
    etransitivity; [apply filter_length_le|]. rewrite length_map.
    etransitivity; [apply L; lia | cbn; lia].
  - intros r Act Fr. destruct (A Act) as [_ Fc].
    assert (E : Game.pipes (Game.beforeScoring r g) =
      survivors ++
      [Pipe.constructor (Game.canvasWidth g0) (Game.canvasHeight g0)
         (Game.canvasWidth g0) Pipe.defaultSettings r]).
    { rewrite Game_beforeScoring_pipes, P, Fc, Fr, CW, CH.
      change (0 + 299 + 1)%Z with 300%Z.
      rewrite Game_remIsZero_same by lia. reflexivity. }
    split; [|split; [exact E|]].
    + destruct (Game_update_fields r g Act) as (_ & _ & _ & -> & _).
      rewrite Fc, Fr. reflexivity.
    + rewrite Game_update_pipes_length, E, length_app by exact Act.
      cbn. lia.
Qed.

(** A game on the canvas of 400 by 700 played by [pilot] for 299 frames
    is still running, has seen one pipe only, and its 300th frame
    brings the second. *)
Lemma Game_first_spawn_at_300_witness :
  let g0 := Game.constructor 400 700 in
  let g1 := Game.startGame (Q2Qc 0.5) g0 in
  let es := Game.pilot (Q2Qc 0.5) 299 g1 in
  let g := Game.run es g1 in
  Game.pipeGap g0 = 300%Z /\
  Game.sameRun es g1 = true /\
  Game.frames es = 299%Z /\
  Game.active g = true /\
  Game.frameCount g = 299%Z /\
  (length (Game.pipes g) <= 1)%nat /\
  Game.frameCount (Game.update (Q2Qc 0.5) g) = 300%Z /\
  length (Game.pipes (Game.update (Q2Qc 0.5) g)) = 2%nat.
Proof.
  cbv zeta.
  set (g0 := Game.constructor 400 700).
  set (g1 := Game.startGame (Q2Qc 0.5) g0).
  set (es := Game.pilot (Q2Qc 0.5) 299 g1).
  assert (HG : Game.pipeGap g0 = 300%Z) by reflexivity.
  assert (W : Game.sameRun es g1 = true) by (vm_compute; reflexivity).
  assert (Fr : Game.frames es = 299%Z) by (vm_compute; reflexivity).
  assert (Act : Game.active (Game.run es g1) = true) by (vm_compute; reflexivity).
  destruct (Game_first_spawn_at_300 g0 (Q2Qc 0.5) es HG W)
    as (_ & _ & Fc & Len & _ & Spawn).
  destruct (Spawn (Q2Qc 0.5) Act Fr) as (F300 & _ & L2).
  split; [exact HG|]. split; [exact W|]. split; [exact Fr|].
  split; [exact Act|].
  split; [exact (eq_trans (Fc Act) Fr)|].
  split; [apply Len; rewrite Fr; lia|].
  split; [exact F300|].
  etransitivity; [exact L2|]. vm_compute. reflexivity.
Defined.

End SpawnCadence.

(* ================================================================= *)
(** ** Pipes leave the screen passed *)

Section DroppedPipes.

(** The filter drops no settled pipe unpassed. *)
Lemma Game_droppedBy_settled (g : Game.t) (p : Pipe.t) :
  Forall Game.settled (Game.pipes g) ->
  In p (Game.droppedBy g) ->
  Pipe.isOffScreen p = true /\ Pipe.passed p = true.
Proof.
  intros HQ I. unfold Game.droppedBy in I.
  destruct (Game.active g); [|destruct I].
  unfold Game.offScreen in I. cbn in I.
  apply filter_In in I. destruct I as [I Off]. split; [exact Off|].
  apply in_map_iff in I. destruct I as (p0 & <- & I0).
  rewrite Forall_forall in HQ. destruct (HQ p0 I0) as [Hp | Hs].
  - exact Hp.
  - exfalso. unfold Pipe.isOffScreen in Off. apply Qcltb_lt in Off.
    cbn in Off. qc_lra.
Qed.

(** With every pipe no faster than the bird is far from the left edge,
    a frame keeps the pipes settled. *)
Lemma Game_advance_settled (r : Qc) (g : Game.t) :
  Forall (fun p => Pipe.speed p <= Bird.x (Game.bird g)) (Game.pipes g) ->
  Q2Qc 1.45 <= Bird.x (Game.bird g) ->
  Forall Game.settled (Game.pipes (Game.advance r g)).
Proof.
  intros HS H0.
  rewrite Game_advance_pipes, Game_beforeScoring_pipes, map_app.
  apply Forall_app. split.
  - rewrite Forall_forall in HS. apply Forall_forall. intros q Hq.
    apply in_map_iff in Hq. destruct Hq as (p' & <- & Hp').
    apply filter_In in Hp'. destruct Hp' as [Hp' Hon].
    apply in_map_iff in Hp'. destruct Hp' as (p & <- & Hp).
    apply Pipe_settled_step; [apply HS, Hp | apply negb_true_iff, Hon].
  - destruct (Game.remIsZero _ _); cbn; constructor; [|constructor].
    apply Pipe_settled_fresh. exact H0.
Qed.

Lemma Game_runLogged_dropped (es : list Game.event) (g : Game.t)
    (log : list Pipe.t) :
  Game.consistent g ->
  Forall (fun p => Pipe.passed p = true) log ->
  Forall (fun p => Pipe.passed p = true) (snd (Game.runLogged es g log)).
Proof.
  revert g log. induction es as [|e es IH]; intros g log C L; [exact L|].
  cbn [Game.runLogged]. apply IH; [apply Game_handle_consistent, C|].
  destruct e as [r|code r| |r|r]; cbn [Game.logged Game.startsGame].
  - apply Forall_app. split; [exact L|].
    apply Forall_forall. intros p I.
    apply (Game_droppedBy_settled g p (Game.pipes_settled g C) I).
  - destruct (Game.isSpaceOrEnter code && _); [constructor | exact L].
  - exact L.
  - constructor.
  - constructor.
Qed.

Lemma passedCount_all (l : list Pipe.t) :
  Forall (fun p => Pipe.passed p = true) l ->
  Game.passedCount l = Z.of_nat (length l).
Proof.
  intros F. unfold Game.passedCount. f_equal.
  induction F as [|p l Hp _ IH]; [reflexivity|].
  cbn [filter]. rewrite Hp. cbn [length]. rewrite IH. reflexivity.
Qed.

Lemma Game_div_succ (a b : Z) :
  (0 <= a)%Z -> (0 < b)%Z ->
  ((a + 1) / b = a / b + (if Game.remIsZero (a + 1) b then 1 else 0))%Z.
Proof.
  intros Ha Hb. unfold Game.remIsZero.
  rewrite Z.rem_mod_nonneg by lia.
  replace (b =? 0)%Z with false by (symmetry; apply Z.eqb_neq; lia).
  cbn [negb andb].
  destruct ((a + 1) mod b =? 0)%Z eqn:E.
  - apply Z.eqb_eq in E. Z.div_mod_to_equations. nia.
  - apply Z.eqb_neq in E. Z.div_mod_to_equations. nia.
Qed.

Lemma filter_split_length {A : Type} (f : A -> bool) (l : list A) :
  (length (filter (fun a => negb (f a)) l) + length (filter f l))%nat
  = length l.
Proof.
  induction l as [|a l IH]; [reflexivity|].
  cbn [filter]. destruct (f a); cbn [negb length]; lia.
Qed.

(** Every pipe spawned in the current run is on screen or in the log:
    one pipe from [startGame] and one more each 300 frames. *)
Lemma Game_runLogged_spawned (es : list Game.event) (g : Game.t)
    (log : list Pipe.t) :
  Game.consistent g ->
  (Game.started g = true ->
   Z.of_nat (length (Game.pipes g) + length log)
   = (1 + Game.frameCount g / 300)%Z) ->
  let st := Game.runLogged es g log in
  Game.started (fst st) = true ->
  Z.of_nat (length (Game.pipes (fst st)) + length (snd st))
  = (1 + Game.frameCount (fst st) / 300)%Z.
Proof.
  revert g log. induction es as [|e es IH]; intros g log C K; [exact K|].
  cbn [Game.runLogged]. apply IH; [apply Game_handle_consistent, C|].
  destruct (Game.startsGame e g) eqn:S.
  - destruct (Game_handle_starts e g S) as [r ->].
    assert (L : Game.logged e g log = []).
    { destruct e; cbn in S |- *; try discriminate; rewrite ?S; reflexivity. }
    rewrite L. intros _. reflexivity.
  - destruct (Game.isFrame e) eqn:F.
    + destruct e as [r|code r| |r|r]; try discriminate.
      cbn [Game.handle Game.logged].
      destruct (Game.active g) eqn:A.
      * intros _.
        assert (St : Game.started g = true).
        { apply Game_active_iff in A. destruct A as [R _].
          unfold Game.started. rewrite R. reflexivity. }
        specialize (K St).
        destruct (Game_update_fields r g A) as (_ & _ & _ & -> & _).
        rewrite Game_update_pipes_length, Game_beforeScoring_pipes by exact A.
        rewrite Game_droppedBy_active by exact A.
        rewrite (Game.pipeGap_300 g C).
        rewrite Game_div_succ
          by (pose proof (Game.frameCount_nonneg g C); lia).
        pose proof (filter_split_length Pipe.isOffScreen
                      (map Pipe.update (Game.pipes g))) as Sp.
        rewrite length_map in Sp.
        rewrite !length_app.
        destruct (Game.remIsZero (Game.frameCount g + 1) 300); cbn [length]; lia.
      * rewrite Game_update_inactive by exact A.
        unfold Game.droppedBy. rewrite A, app_nil_r. exact K.
    + assert (L : Game.logged e g log = log).
      { destruct e; cbn in S, F |- *; try discriminate; rewrite ?S; reflexivity. }
      rewrite L.
      destruct (Game_handle_other e g S F) as [-> | ->]; exact K.
Qed.

(** C10, refuted as stated.  A pipe need not go off screen to end its
    life: a game that is lost keeps its pipes until [startGame] throws
    them away with [this.pipes = []].  On the canvas of 400 by 700 a
    game is started and the bird left to fall: frame 57 ends the game on
    the ground test, with the one pipe of the run still on screen, not
    passed and not dropped by the filter; the restart replaces it by a
    new pipe at [x = canvasWidth].  The score is 0 after every event of
    the run: the first pipe has contributed no point. *)
Lemma Game_unpassed_pipe_discarded :
  let g0 := Game.constructor 400 700 in
  let es := Game.StartButton (Q2Qc 0.5)
              :: repeat (Game.Frame (Q2Qc 0.5)) 57 in
  let st := Game.runLogged es g0 [] in
  let g := fst st in
  let g' := Game.handle (Game.RestartButton (Q2Qc 0.5)) g in
  g = Game.run es g0 /\
  Game.isGameOver g = true /\
  map Pipe.passed (Game.pipes g) = [false] /\
  map Pipe.isOffScreen (Game.pipes g) = [false] /\
  map (fun p => Qcltb (Pipe.x p) (Game.canvasWidth g)) (Game.pipes g)
    = [true] /\
  snd st = [] /\
  map (fun p => Qcltb (Pipe.x p) (Game.canvasWidth g')) (Game.pipes g')
    = [false] /\
  forallb (fun n => (Game.score
                       (Game.run (firstn n (es ++ [Game.RestartButton (Q2Qc 0.5)]))
                          g0) =? 0)%Z)
          (seq 0 60) = true.
Proof. vm_compute. repeat split. Qed.

(** C10, as the code has it.  In every state the game reaches from its
    constructor the pipes move at 1.45 a frame, less than the bird's
    [x] of 50, and every pipe that the off-screen filter of the next
    frame drops has [passed] set: no pipe leaves the screen without its
    pass event.  So every pipe the filter has dropped in the current run
    has contributed its one point, and a pipe still on screen has
    contributed one point if its flag is set and none if not: the score
    is the number of dropped pipes plus the number of passed pipes still
    on screen, and once a game has been started the pipes spawned in the
    run, one at the start and one each 300 frames, are those on screen
    and those dropped.  A pipe that is on screen when the game is lost
    or started again may then end with no point. *)
Theorem Game_dropped_pipes_are_passed (width height : N)
    (es : list Game.event) :
  let st := Game.runLogged es (Game.constructor width height) [] in
  let g := fst st in
  g = Game.run es (Game.constructor width height) /\
  Forall (fun p => Pipe.speed p = Q2Qc 1.45 /\
                   Pipe.speed p < Bird.x (Game.bird g)) (Game.pipes g) /\
  (forall p, In p (Game.droppedBy g) ->
     Pipe.isOffScreen p = true /\ Pipe.passed p = true) /\
  Forall (fun p => Pipe.passed p = true) (snd st) /\
  Game.score g =
    (Z.of_nat (length (snd st)) + Game.passedCount (Game.pipes g))%Z /\
  (Game.started g = true ->
   Z.of_nat (length (Game.pipes g) + length (snd st))
   = (1 + Game.frameCount g / 300)%Z).
Proof.
  intros st g.
  destruct (Game_runLogged_accounting es (Game.constructor width height) []
              eq_refl) as [R J].
  fold st in R, J. fold g in R, J.
  pose proof (Game_reachable_consistent width height es) as C.
  rewrite <- R in C.
  pose proof (Game_runLogged_dropped es (Game.constructor width height) []
                (Game_constructor_consistent width height) (Forall_nil _)) as D.
  fold st in D.
  split; [exact R|]. split; [|split; [|split; [exact D|]]].
  - pose proof (Game.pipes_standard g C) as HP.
    rewrite (Game.bird_x g C).
    eapply Forall_impl; [|exact HP].
    intros p [S _]. split; [exact S|]. rewrite S.
    unfold Qclt. vm_compute. reflexivity.
  - intros p. apply Game_droppedBy_settled, (Game.pipes_settled g C).
  - split; [rewrite J, (passedCount_all _ D); lia|].
    apply (Game_runLogged_spawned es (Game.constructor width height) []
             (Game_constructor_consistent width height)).
    discriminate.
Qed.

(** The game played by [pilot] for 700 frames: two pipes have gone off
    screen, both passed, the third is on its way, and the score is 2. *)
Example Game_dropped_pipes_scenario :
  let g1 := Game.startGame (Q2Qc 0.5) (Game.constructor 400 700) in
  let st := Game.runLogged (Game.pilot (Q2Qc 0.5) 700 g1) g1 [] in
  Game.active (fst st) = true /\
  Game.frameCount (fst st) = 700%Z /\
  map Pipe.passed (snd st) = [true; true] /\
  map Pipe.passed (Game.pipes (fst st)) = [false] /\
  Game.score (fst st) = 2%Z.
Proof. vm_compute. repeat split. Qed.

End DroppedPipes.

(* ================================================================= *)
(** * Further properties of the code *)

(** ** Restarting and the states in which nothing moves *)

Section RestartAndFreeze.

Lemma Bird_reset_update (b : Bird.t) :
  Bird.reset (Bird.update b) = Bird.reset b.
Proof.
  unfold Bird.update, Bird.clampCeiling, Bird.clampFloor.
  destruct (Bird.belowCanvas (Bird.integrate b));
    destruct (Bird.aboveCanvas _); reflexivity.
Qed.

Lemma Game_startGame_ext (r : Qc) (g1 g2 : Game.t) :
  Game.canvasWidth g1 = Game.canvasWidth g2 ->
  Game.canvasHeight g1 = Game.canvasHeight g2 ->
  Game.pipeGap g1 = Game.pipeGap g2 ->
  Bird.reset (Game.bird g1) = Bird.reset (Game.bird g2) ->
  Game.startGame r g1 = Game.startGame r g2.
Proof.
  intros W H P B.
  unfold Game.startGame, Game.spawnPipe, Game.set_pipes, Game.set_frameCount,
    Game.set_isGameOver, Game.set_isRunning, Game.set_score, Game.set_bird.
  cbn. rewrite W, H, P, B. reflexivity.
Qed.

Lemma Game_startGame_handle (r : Qc) (e : Game.event) (g : Game.t) :
  Game.startGame r (Game.handle e g) = Game.startGame r g.
Proof.
  destruct (Game.startsGame e g) eqn:S.
  - destruct (Game_handle_starts e g S) as [r' ->]. reflexivity.
  - destruct (Game.isFrame e) eqn:F.
    + destruct e as [r'|code r'| |r'|r']; try discriminate. cbn [Game.handle].
      destruct (Game.active g) eqn:A.
      * destruct (Game_update_fields r' g A) as (B & _ & _ & _ & P & W & H).
        apply Game_startGame_ext; auto.
        rewrite B. apply Bird_reset_update.
      * rewrite Game_update_inactive by exact A. reflexivity.
    + destruct (Game_handle_other e g S F) as [-> | ->]; reflexivity.
Qed.

(** X1.  [startGame] forgets the past: whatever events the game has
    been through, starting it again gives the state that starting it
    straight away would have given (for the same draw of
    [Math.random()]): same bird at mid-height and at rest, one pipe at
    the right edge, score and frame counter at 0. *)
Theorem Game_restart_forgets (es : list Game.event) (g : Game.t) (r : Qc) :
  Game.startGame r (Game.run es g) = Game.startGame r g.
Proof.
  revert g. induction es as [|e es IH]; intros g; [reflexivity|].
  cbn [Game.run]. rewrite IH. apply Game_startGame_handle.
Qed.

Lemma Game_handle_inactive (e : Game.event) (g : Game.t) :
  Game.active g = false -> Game.startsGame e g = false ->
  Game.handle e g = g.
Proof.
  intros A S. destruct e as [r|code r| |r|r]; cbn in S |- *; try discriminate.
  - apply Game_update_inactive, A.
  - unfold Game.keydown. rewrite S.
    unfold Game.active in A.
    destruct (Game.isRunning g), (Game.isGameOver g), (Game.isSpace code);
      cbn in A |- *; try reflexivity; discriminate.
  - unfold Game.click. unfold Game.active in A.
    destruct (Game.isRunning g), (Game.isGameOver g);
      cbn in A |- *; try reflexivity; discriminate.
Qed.

(** X2.  A game that is not running, or is over, is frozen: frames,
    clicks on the canvas and keys that do not start a game leave the
    whole state as it is, however many of them arrive. *)
Theorem Game_inactive_frozen (es : list Game.event) (g : Game.t) :
  Game.active g = false ->
  Game.sameRun es g = true ->
  Game.run es g = g.
Proof.
  intros A. induction es as [|e es IH]; intros S; [reflexivity|].
  cbn [Game.sameRun] in S. apply andb_true_iff in S. destruct S as [Se Ses].
  apply negb_true_iff in Se.
  cbn [Game.run]. rewrite (Game_handle_inactive e g A Se) in *.
  apply IH, Ses.
Qed.

(** The game of the canvas of 400 by 700 lost after 57 frames of free
    fall: 20 more frames, clicks and presses of another key change
    nothing. *)
Lemma Game_inactive_frozen_witness :
  let g := Game.run (Game.StartButton (Q2Qc 0.5)
                       :: repeat (Game.Frame (Q2Qc 0.5)) 57)
             (Game.constructor 400 700) in
  let es := repeat (Game.Frame (Q2Qc 0.25)) 20
            ++ [Game.CanvasClick; Game.KeyDown Game.OtherKey 0] in
  Game.isGameOver g = true /\ Game.run es g = g.
Proof.
  cbv zeta. split; [vm_compute; reflexivity|].
  apply Game_inactive_frozen; vm_compute; reflexivity.
Defined.

End RestartAndFreeze.

(* ================================================================= *)
(** ** Repeated updates of the bird and of a pipe *)

Section RepeatedUpdates.

(** X4.  A bird at rest on the floor stays there: with [y = canvasHeight
    - height], [velocity = 0] and gravity pulling down, any number of
    calls of [update] gives the same bird back. *)
Theorem Bird_landed_stays (b : Bird.t) (n : nat) :
  Bird.y b = Bird.canvasHeight b - Bird.height b ->
  Bird.velocity b = 0 ->
  0 < Bird.gravity b ->
  Bird.height b <= Bird.canvasHeight b ->
  Flight.updates n b = b.
Proof.
  intros Hy Hv Hg Hh.
  assert (Fix : Bird.update b = b).
  { unfold Bird.update, Bird.clampCeiling, Bird.clampFloor,
      Bird.belowCanvas, Bird.aboveCanvas.
    rewrite Bird_integrate_y.
    destruct b as [cw ch w h x y v gr js]; cbn in *. subst y v.
    unfold Qcgtb.
    destruct (Qcltb ch (ch - h + (0 + gr) + h)) eqn:E1; cbn;
      [apply Qcltb_lt in E1 | apply Qcltb_ge in E1; exfalso; qc_lra].
    destruct (Qcltb (ch - h) 0) eqn:E2; cbn;
      [apply Qcltb_lt in E2; exfalso; qc_lra | reflexivity]. }
  induction n as [|n IH]; [reflexivity|].
  change (Flight.updates (S n) b) with (Bird.update (Flight.updates n b)).
  rewrite IH. exact Fix.
Qed.

Lemma Bird_landed_stays_witness :
  let b := Bird.set_y (Q2Qc 680) (Bird.constructor (Q2Qc 400) (Q2Qc 700)) in
  Flight.updates 25 b = b.
Proof.
  apply (Bird_landed_stays
           (Bird.set_y (Q2Qc 680) (Bird.constructor (Q2Qc 400) (Q2Qc 700))) 25).
  - apply Qc_is_canon. vm_compute. reflexivity.
  - reflexivity.
  - unfold Qclt. vm_compute. reflexivity.
  - unfold Qcle. vm_compute. discriminate.
Defined.

Lemma Pipe_updates_frame (p : Pipe.t) (n : nat) :
  Flight.pipeUpdates n p = Pipe.set_x (Pipe.x (Flight.pipeUpdates n p)) p.
Proof.
  induction n as [|n IH]; [destruct p; reflexivity|].
  change (Flight.pipeUpdates (S n) p)
    with (Pipe.update (Flight.pipeUpdates n p)).
  unfold Pipe.update. rewrite IH at 3. reflexivity.
Qed.

Lemma Pipe_updates_x_le (p : Pipe.t) (n : nat) :
  0 <= Pipe.speed p -> Pipe.x (Flight.pipeUpdates n p) <= Pipe.x p.
Proof.
  intros Hs. induction n as [|n IH]; [apply Qcle_refl|].
  change (Flight.pipeUpdates (S n) p)
    with (Pipe.update (Flight.pipeUpdates n p)).
  assert (S : Pipe.speed (Flight.pipeUpdates n p) = Pipe.speed p)
    by (rewrite Pipe_updates_frame; reflexivity).
  unfold Pipe.update. cbn [Pipe.x Pipe.set_x]. rewrite S.
  generalize dependent (Pipe.x (Flight.pipeUpdates n p)). intros x' IH.
  qc_lra.
Qed.

(** X5.  Pipes only move left.  At a speed that is not negative, [n]
    calls of [update] leave a pipe at its [x] or to the left of it; so a
    pipe that is off screen stays off screen and a pipe that the bird's
    [x] has passed stays passed by.  The calls change nothing but [x]:
    a pipe whose flag is set keeps it. *)
Theorem Pipe_moves_left (p : Pipe.t) (n : nat) :
  (0 <= Pipe.speed p -> Pipe.x (Flight.pipeUpdates n p) <= Pipe.x p) /\
  (0 <= Pipe.speed p -> Pipe.isOffScreen p = true ->
   Pipe.isOffScreen (Flight.pipeUpdates n p) = true) /\
  (forall birdX, 0 <= Pipe.speed p ->
   birdX > Pipe.x p + Pipe.width p ->
   birdX > Pipe.x (Flight.pipeUpdates n p)
           + Pipe.width (Flight.pipeUpdates n p)) /\
  Pipe.passed (Flight.pipeUpdates n p) = Pipe.passed p /\
  Flight.pipeUpdates n p = Pipe.set_x (Pipe.x (Flight.pipeUpdates n p)) p.
Proof.
  pose proof (Pipe_updates_x_le p n) as L.
  pose proof (Pipe_updates_frame p n) as R.
  assert (W : Pipe.width (Flight.pipeUpdates n p) = Pipe.width p)
    by (rewrite R; reflexivity).
  split; [exact L|]. split; [|split; [|split; [rewrite R; reflexivity|exact R]]].
  - intros Hs Off. specialize (L Hs). unfold Pipe.isOffScreen in *. rewrite W.
    apply Qcltb_lt in Off. apply Qcltb_lt.
    clear R W. revert L.
    generalize (Pipe.x (Flight.pipeUpdates n p)). intros x' L.
    qc_lra.
  - intros birdX Hs B. specialize (L Hs). rewrite W.
    clear R W. revert L.
    generalize (Pipe.x (Flight.pipeUpdates n p)). intros x' L.
    qc_lra.
Qed.

End RepeatedUpdates.

(* ================================================================= *)
(** ** The bird on doubles stays below the ceiling *)

Section BirdOnDoubles.

Lemma Bird64_perform_invariant (ch : float) (c : Bird64.call) (b : Bird64.t) :
  (ch / 2 <? 0)%float = false ->
  Bird64.canvasHeight b = ch ->
  (Bird64.y b <? 0)%float = false ->
  (Bird64.y (Bird64.perform c b) <? 0)%float = false.
Proof.
  intros H0 Hc Hy.
  destruct c; cbn [Bird64.perform].
  - unfold Bird64.update, Bird64.clampCeiling, Bird64.aboveCanvas.
    destruct (Bird64.y (Bird64.clampFloor (Bird64.integrate b)) <? 0)%float
      eqn:E; [vm_compute; reflexivity | exact E].
  - exact Hy.
  - cbn. rewrite Hc. exact H0.
Qed.

Lemma Bird64_perform_fields (c : Bird64.call) (b : Bird64.t) :
  Bird64.perform c b
  = Bird64.set_velocity (Bird64.velocity (Bird64.perform c b))
      (Bird64.set_y (Bird64.y (Bird64.perform c b)) b).
Proof.
  destruct c; cbn [Bird64.perform].
  - unfold Bird64.update, Bird64.clampCeiling, Bird64.clampFloor.
    destruct (Bird64.belowCanvas (Bird64.integrate b));
      destruct (Bird64.aboveCanvas _); destruct b; reflexivity.
  - destruct b; reflexivity.
  - destruct b; reflexivity.
Qed.

Lemma Bird64_run_invariant (ch : float) (cs : list Bird64.call)
    (b0 b : Bird64.t) :
  (ch / 2 <? 0)%float = false ->
  Bird64.canvasHeight b0 = ch ->
  (Bird64.y b <? 0)%float = false ->
  b = Bird64.set_velocity (Bird64.velocity b) (Bird64.set_y (Bird64.y b) b0) ->
  (Bird64.y (Bird64.run cs b) <? 0)%float = false /\
  Bird64.run cs b
  = Bird64.set_velocity (Bird64.velocity (Bird64.run cs b))
      (Bird64.set_y (Bird64.y (Bird64.run cs b)) b0).
Proof.
  intros H0 Hc0. revert b.
  induction cs as [|c cs IH]; intros b I F; cbn [Bird64.run].
  - split; [exact I | exact F].
  - assert (Hc : Bird64.canvasHeight b = ch) by (rewrite F; exact Hc0).
    apply IH.
    + apply (Bird64_perform_invariant ch); assumption.
    + rewrite (Bird64_perform_fields c b) at 1.
      generalize (Bird64.velocity (Bird64.perform c b))
                 (Bird64.y (Bird64.perform c b)).
      intros v y'. rewrite F. reflexivity.
Qed.

(** X8.  The bird never rises above the canvas.  On a canvas whose
    half height is not negative, after any calls of [update], [flap]
    and [reset] on a new bird, in any order, the test [y < 0] is false,
    and the calls have changed nothing but [y] and [velocity].  (The
    floor is not kept as firmly: see [Bird64_update_rounded_sum].) *)
Theorem Bird64_never_above_ceiling (cw ch : float) (cs : list Bird64.call) :
  (ch / 2 <? 0)%float = false ->
  let b0 := Bird64.constructor cw ch in
  let b := Bird64.run cs b0 in
  (Bird64.y b <? 0)%float = false /\
  b = Bird64.set_velocity (Bird64.velocity b) (Bird64.set_y (Bird64.y b) b0).
Proof.
  intros H0 b0 b.
  apply (Bird64_run_invariant ch cs b0 b0 H0); [reflexivity | exact H0 | reflexivity].
Qed.

(** A bird on the canvas 700 high that is flapped in every frame: it
    reaches the ceiling and is held at [y = 0]. *)
Lemma Bird64_never_above_ceiling_witness :
  let cs := concat (repeat [Bird64.Flap; Bird64.Update] 60) in
  let b := Bird64.run cs (Bird64.constructor 400 700) in
  (Bird64.y b <? 0)%float = false /\
  b = Bird64.set_velocity (Bird64.velocity b)
        (Bird64.set_y (Bird64.y b) (Bird64.constructor 400 700)).
Proof.
  apply (Bird64_never_above_ceiling 400 700
           (concat (repeat [Bird64.Flap; Bird64.Update] 60))).
  vm_compute. reflexivity.
Defined.

End BirdOnDoubles.

(* ================================================================= *)
(** ** The objects of a game keep their shape *)

Section ShapeInvariant.

Lemma Shape_bird_update (h : Qc) (b : Bird.t) :
  Shape.bird h b -> Shape.bird h (Bird.update b).
Proof.
  unfold Shape.bird, Bird.update, Bird.clampCeiling, Bird.clampFloor.
  destruct (Bird.belowCanvas (Bird.integrate b));
    destruct (Bird.aboveCanvas _); cbn; tauto.
Qed.

Lemma Shape_pipe_step (h birdX : Qc) (p : Pipe.t) :
  Shape.pipe h p -> Shape.pipe h (snd (Pipe.isPassed birdX (Pipe.update p))).
Proof.
  rewrite Pipe_isPassed_snd.
  destruct (fst (Pipe.isPassed birdX (Pipe.update p))); cbn; tauto.
Qed.

Lemma Shape_pipe_fresh (w h birdX r : Qc) :
  Shape.pipe h
    (snd (Pipe.isPassed birdX (Pipe.constructor w h w Pipe.defaultSettings r))).
Proof.
  rewrite Pipe_isPassed_snd.
  destruct (fst (Pipe.isPassed birdX _)); cbn; repeat split.
Qed.

Lemma Shape_game_startGame (w h : N) (r : Qc) (g : Game.t) :
  Shape.game w h g -> Shape.game w h (Game.startGame r g).
Proof.
  intros (W & H & B & P). unfold Shape.game. cbn.
  split; [exact W|]. split; [exact H|]. split.
  - unfold Shape.bird in *. cbn. tauto.
  - constructor; [|constructor]. rewrite H. repeat split.
Qed.

Lemma Shape_game_advance (w h : N) (r : Qc) (g : Game.t) :
  Shape.game w h g -> Shape.game w h (Game.advance r g).
Proof.
  intros (W & H & B & P). unfold Shape.game.
  destruct (Game_advance_rest r g) as (_ & _ & -> & -> & _).
  rewrite Game_advance_bird.
  split; [exact W|]. split; [exact H|].
  split; [apply Shape_bird_update, B|].
  rewrite Game_advance_pipes, Game_beforeScoring_pipes, map_app.
  apply Forall_app. split.
  - rewrite Forall_forall in P. apply Forall_forall. intros q Hq.
    apply in_map_iff in Hq. destruct Hq as (p' & <- & Hp').
    apply filter_In in Hp'. destruct Hp' as [Hp' _].
    apply in_map_iff in Hp'. destruct Hp' as (p & <- & Hp).
    apply Shape_pipe_step, P, Hp.
  - destruct (Game.remIsZero _ _); cbn; constructor; [|constructor].
    rewrite H. apply Shape_pipe_fresh.
Qed.

Lemma Shape_game_handle (w h : N) (e : Game.event) (g : Game.t) :
  Shape.game w h g -> Shape.game w h (Game.handle e g).
Proof.
  intros S. destruct (Game.startsGame e g) eqn:St.
  - destruct (Game_handle_starts e g St) as [r ->].
    apply Shape_game_startGame, S.
  - destruct (Game.isFrame e) eqn:F.
    + destruct e as [r|code r| |r|r]; try discriminate. cbn [Game.handle].
      destruct (Game.active g) eqn:A.
      * rewrite Game_update_active by exact A.
        pose proof (Shape_game_advance w h r g S) as S'.
        destruct (Game.checkCollisions (Game.advance r g)); exact S'.
      * rewrite Game_update_inactive by exact A. exact S.
    + destruct (Game_handle_other e g St F) as [-> | ->]; [exact S|].
      destruct S as (W & H & B & P). unfold Shape.game. cbn.
      repeat split; try assumption; apply B.
Qed.

Lemma Shape_game_reachable (w h : N) (es : list Game.event) :
  Shape.game w h (Game.run es (Game.constructor w h)).
Proof.
  assert (S0 : Shape.game w h (Game.constructor w h)).
  { unfold Shape.game. cbn. repeat split. constructor. }
  revert S0. generalize (Game.constructor w h).
  induction es as [|e es IH]; intros g S; cbn; [exact S|].
  apply IH, Shape_game_handle, S.
Qed.

Lemma of_N_le (a b : N) : (a <= b)%N -> of_N a <= of_N b.
Proof.
  intros H. unfold of_N, Qcle. rewrite !this_Q2Qc, <- Zle_Qle. lia.
Qed.

Lemma of_N_lt (a b : N) : (a < b)%N -> of_N a < of_N b.
Proof.
  intros H. unfold of_N, Qclt. rewrite !this_Q2Qc, <- Zlt_Qlt. lia.
Qed.

End ShapeInvariant.

(* ================================================================= *)
(** ** Collisions and the end of the game *)

Section CollisionsAndGameOver.

Lemma of_N_80 : of_N 80 = Q2Qc 80.
Proof. apply Qc_is_canon. reflexivity. Qed.

Lemma of_N_40 : of_N 40 = Q2Qc 40.
Proof. apply Qc_is_canon. reflexivity. Qed.

Lemma of_N_390 : of_N 390 = Q2Qc 390.
Proof. apply Qc_is_canon. reflexivity. Qed.

Lemma Game_hits_false (g : Game.t) :
  Game.hitsGroundOrCeiling g = false <->
  0 < Bird.y (Game.bird g) /\
  Bird.y (Game.bird g) + Bird.height (Game.bird g) < Game.canvasHeight g.
Proof.
  unfold Game.hitsGroundOrCeiling, Qcgeb, Qcleb.
  rewrite orb_false_iff, !negb_false_iff, !Qcltb_lt. tauto.
Qed.

Lemma Game_checkCollisions_false (g : Game.t) :
  Game.checkCollisions g = false <->
  Game.hitsGroundOrCeiling g = false /\
  Forall (fun pipe =>
            Forall (fun box =>
                      Game.rectsIntersect (Bird.getBounds (Game.bird g)) box
                      = false)
                   (Pipe.getBounds pipe))
         (Game.pipes g).
Proof.
  unfold Game.checkCollisions.
  destruct (Game.hitsGroundOrCeiling g).
  - split; [discriminate | intros [H _]; discriminate].
  - split.
    + intros E. split; [reflexivity|].
      apply Forall_forall. intros p Hp. apply Forall_forall. intros bx Hb.
      destruct (Game.rectsIntersect _ bx) eqn:I; [|reflexivity].
      assert (T : existsb
        (fun pipe => existsb
           (fun pipeBounds =>
              Game.rectsIntersect (Bird.getBounds (Game.bird g)) pipeBounds)
           (Pipe.getBounds pipe)) (Game.pipes g) = true).
      { apply existsb_exists. exists p. split; [exact Hp|].
        apply existsb_exists. exists bx. split; assumption. }
      congruence.
    + intros [_ F].
      destruct (existsb _ (Game.pipes g)) eqn:E; [|reflexivity].
      apply existsb_exists in E. destruct E as (p & Hp & E).
      apply existsb_exists in E. destruct E as (bx & Hb & I).
      rewrite Forall_forall in F. specialize (F p Hp).
      rewrite Forall_forall in F. rewrite (F bx Hb) in I. discriminate.
Qed.



Lemma Game_start_clear (w h : N) (r : Qc) (g : Game.t) :
  (80 <= w)%N -> (40 < h)%N -> Shape.game w h g ->
  Game.checkCollisions (Game.startGame r g) = false.
Proof.
  intros Hw Hh (W & H & B & _).
  apply of_N_le in Hw. apply of_N_lt in Hh. rewrite of_N_80 in Hw.
  rewrite of_N_40 in Hh.
  destruct B as (BC & BW & BH & BX & _).
  apply Game_checkCollisions_false. split.
  - apply Game_hits_false. cbn. rewrite H, BH, BC. split; qc_lra.
  - cbn. constructor; [|constructor].
    constructor; [|constructor; [|constructor]];
      (destruct (Game.rectsIntersect _ _) eqn:I; [exfalso|reflexivity]);
      apply Game_rectsIntersect_spec in I; cbn in I;
      destruct I as (_ & I2 & _); rewrite W, BX, BW in I2; qc_lra.
Qed.

Lemma Game_collision_step (w h : N) (e : Game.event) (g : Game.t) :
  (80 <= w)%N -> (40 < h)%N -> Shape.game w h g ->
  (Game.active g = true -> Game.checkCollisions g = false) /\
  (Game.isGameOver g = true -> Game.checkCollisions g = true) ->
  (Game.active (Game.handle e g) = true ->
   Game.checkCollisions (Game.handle e g) = false) /\
  (Game.isGameOver (Game.handle e g) = true ->
   Game.checkCollisions (Game.handle e g) = true).
Proof.
  intros Hw Hh S [IA IO].
  destruct (Game.startsGame e g) eqn:St.
  - destruct (Game_handle_starts e g St) as [r ->].
    split; [intros _; apply (Game_start_clear w h); assumption|].
    cbn. discriminate.
  - destruct (Game.isFrame e) eqn:F.
    + destruct e as [r|code r| |r|r]; try discriminate. cbn [Game.handle].
      destruct (Game.active g) eqn:A.
      * rewrite Game_update_active by exact A.
        destruct (Game_advance_rest r g) as (_ & _ & _ & _ & R & O).
        apply Game_active_iff in A. destruct A as [Ar Ao].
        destruct (Game.checkCollisions (Game.advance r g)) eqn:C.
        -- split; [cbn; discriminate | intros _; exact C].
        -- split; [intros _; exact C|]. rewrite O, Ao. discriminate.
      * rewrite Game_update_inactive by exact A. split; [congruence | exact IO].
    + destruct (Game_handle_other e g St F) as [-> | ->]; split; assumption.
Qed.

(** X7.  On a canvas at least 80 wide and more than 40 high, from the
    first start on, a game is over exactly when its bird touches the
    floor, the ceiling or a pipe, and running exactly when it does not:
    a frame never leaves a running game in a colliding position, and a
    lost game keeps the position that lost it. *)
Theorem Game_over_iff_colliding (w h : N) (es : list Game.event) :
  (80 <= w)%N -> (40 < h)%N ->
  let g := Game.run es (Game.constructor w h) in
  Game.isGameOver g = Game.started g && Game.checkCollisions g /\
  Game.isRunning g = Game.started g && negb (Game.checkCollisions g).
Proof.
  intros Hw Hh g.
  assert (I : (Game.active g = true -> Game.checkCollisions g = false) /\
              (Game.isGameOver g = true -> Game.checkCollisions g = true)).
  { subst g.
    assert (I0 : (Game.active (Game.constructor w h) = true ->
                  Game.checkCollisions (Game.constructor w h) = false) /\
                 (Game.isGameOver (Game.constructor w h) = true ->
                  Game.checkCollisions (Game.constructor w h) = true))
      by (split; cbn; discriminate).
    assert (S0 : Shape.game w h (Game.constructor w h))
      by apply (Shape_game_reachable w h []).
    revert I0 S0. generalize (Game.constructor w h).
    induction es as [|e es IH]; intros g S I; cbn [Game.run]; [exact S|].
    apply IH.
    - apply (Game_collision_step w h); assumption.
    - apply Shape_game_handle; assumption. }
  destruct I as [IA IO].
  pose proof (Game.flags_exclusive g (Game_reachable_consistent w h es)) as X.
  unfold Game.started. rewrite Game_active_iff in IA.
  destruct (Game.isRunning g), (Game.isGameOver g); cbn.
  - specialize (X eq_refl). discriminate.
  - rewrite IA by (split; reflexivity). split; reflexivity.
  - rewrite IO by reflexivity. split; reflexivity.
  - split; reflexivity.
Qed.

Lemma Game_over_iff_colliding_witness :
  let g := Game.run (Game.StartButton (Q2Qc 0.5)
                       :: repeat (Game.Frame (Q2Qc 0.5)) 57)
             (Game.constructor 400 700) in
  Game.isGameOver g = true /\ Game.checkCollisions g = true.
Proof.
  cbv zeta.
  destruct (Game_over_iff_colliding 400 700
              (Game.StartButton (Q2Qc 0.5) :: repeat (Game.Frame (Q2Qc 0.5)) 57))
    as [O _]; [vm_compute; discriminate | vm_compute; reflexivity |].
  assert (T : Game.isGameOver
    (Game.run (Game.StartButton (Q2Qc 0.5) :: repeat (Game.Frame (Q2Qc 0.5)) 57)
       (Game.constructor 400 700)) = true) by (vm_compute; reflexivity).
  split; [exact T|].
  rewrite T in O. symmetry in O. apply andb_true_iff in O. apply O.
Defined.

End CollisionsAndGameOver.

(* ================================================================= *)
(** ** The score and the pipes spawned *)

Section ScoreAndSpawns.

Lemma passedCount_le_length (l : list Pipe.t) :
  (0 <= Game.passedCount l <= Z.of_nat (length l))%Z.
Proof.
  unfold Game.passedCount.
  pose proof (filter_length_le Pipe.passed l). lia.
Qed.

(** X9.  The score never exceeds the number of pipes the run has
    spawned: once a game has been started, [0 <= score <= 1 + frameCount
    / 300], one pipe from [startGame] and one more each 300 frames. *)
Theorem Game_score_at_most_spawned (w h : N) (es : list Game.event) :
  let g := Game.run es (Game.constructor w h) in
  Game.started g = true ->
  (0 <= Game.score g <= 1 + Game.frameCount g / 300)%Z.
Proof.
  intros g St.
  destruct (Game_runLogged_accounting es (Game.constructor w h) [] eq_refl)
    as [R J].
  pose proof (Game_runLogged_spawned es (Game.constructor w h) []
                (Game_constructor_consistent w h)) as Sp.
  cbv zeta in Sp. rewrite R in *. fold g in J, Sp.
  specialize (Sp ltac:(discriminate) St).
  pose proof (passedCount_le_length (Game.pipes g)).
  pose proof (passedCount_le_length
                (snd (Game.runLogged es (Game.constructor w h) []))).
  rewrite Nat2Z.inj_add in Sp. lia.
Qed.

(** A game started and left alone for 40 frames. *)
Lemma Game_score_at_most_spawned_witness :
  let g := Game.run (Game.StartButton (Q2Qc 0.5)
                       :: repeat (Game.Frame (Q2Qc 0.5)) 40)
             (Game.constructor 400 700) in
  Game.started g = true /\
  (0 <= Game.score g <= 1 + Game.frameCount g / 300)%Z.
Proof.
  cbv zeta.
  assert (St : Game.started
    (Game.run (Game.StartButton (Q2Qc 0.5) :: repeat (Game.Frame (Q2Qc 0.5)) 40)
       (Game.constructor 400 700)) = true) by (vm_compute; reflexivity).
  split; [exact St|].
  exact (Game_score_at_most_spawned 400 700
           (Game.StartButton (Q2Qc 0.5) :: repeat (Game.Frame (Q2Qc 0.5)) 40) St).
Defined.

Lemma Pipe_fits_step (h birdX : Qc) (p : Pipe.t) :
  let fits := fun q : Pipe.t =>
    Q2Qc 60 <= Pipe.topHeight q /\ Pipe.bottomY q <= h /\
    0 <= Pipe.bottomHeight q in
  fits p -> fits (snd (Pipe.isPassed birdX (Pipe.update p))).
Proof.
  cbv zeta. rewrite Pipe_isPassed_snd.
  destruct (fst (Pipe.isPassed birdX (Pipe.update p))); cbn; tauto.
Qed.

Lemma Pipe_fits_fresh (w h birdX r : Qc) :
  Q2Qc 390 <= h -> 0 <= r -> r < 1 ->
  let q := snd (Pipe.isPassed birdX
                  (Pipe.constructor w h w Pipe.defaultSettings r)) in
  Q2Qc 60 <= Pipe.topHeight q /\ Pipe.bottomY q <= h /\
  0 <= Pipe.bottomHeight q.
Proof.
  intros Hh R0 R1. cbv zeta. rewrite Pipe_isPassed_snd.
  assert (H150 : Q2Qc 150 <= h) by qc_lra.
  assert (Hgap : Pipe.pipeVerticalGap Pipe.defaultSettings
                 <= Q2Qc (2 # 3) * h - Q2Qc 10) by (cbn; qc_lra).
  destruct (Pipe_constructor_topHeight_range w h w Pipe.defaultSettings r
              R0 R1 H150) as [T _].
  destruct (Pipe_constructor_gap_fits w h w Pipe.defaultSettings r
              R0 R1 H150 Hgap) as [F B].
  destruct (fst (Pipe.isPassed birdX _)); cbn in *; auto.
Qed.

Lemma Game_fits_handle (w h : N) (e : Game.event) (g : Game.t) :
  (390 <= h)%N -> Shape.fair e -> Shape.game w h g ->
  let fits := fun q : Pipe.t =>
    Q2Qc 60 <= Pipe.topHeight q /\ Pipe.bottomY q <= of_N h /\
    0 <= Pipe.bottomHeight q in
  Forall fits (Game.pipes g) -> Forall fits (Game.pipes (Game.handle e g)).
Proof.
  intros Hh Fe (W & H & _) fits P.
  apply of_N_le in Hh. rewrite of_N_390 in Hh.
  destruct (Game.startsGame e g) eqn:St.
  - assert (E : exists r, Game.handle e g = Game.startGame r g
                          /\ 0 <= r /\ r < 1).
    { destruct e as [r|code r| |r|r]; cbn in St, Fe |- *; try discriminate;
        exists r; (split; [|exact Fe]); try reflexivity.
      unfold Game.keydown. rewrite St.
      destruct (Game.isGameOver g); reflexivity. }
    destruct E as (r & -> & R0 & R1). cbn.
    constructor; [|constructor]. rewrite H.
    pose proof (Pipe_fits_fresh (Game.canvasWidth g) (of_N h)
                  (Pipe.x (Pipe.constructor (Game.canvasWidth g) (of_N h)
                     (Game.canvasWidth g) Pipe.defaultSettings r) +
                   Pipe.width (Pipe.constructor (Game.canvasWidth g) (of_N h)
                     (Game.canvasWidth g) Pipe.defaultSettings r))
                  r Hh R0 R1) as Fr.
    cbv zeta in Fr. rewrite Pipe_isPassed_snd in Fr.
    assert (N : fst (Pipe.isPassed
      (Pipe.x (Pipe.constructor (Game.canvasWidth g) (of_N h)
                 (Game.canvasWidth g) Pipe.defaultSettings r) +
       Pipe.width (Pipe.constructor (Game.canvasWidth g) (of_N h)
                 (Game.canvasWidth g) Pipe.defaultSettings r))
      (Pipe.constructor (Game.canvasWidth g) (of_N h)
         (Game.canvasWidth g) Pipe.defaultSettings r)) = false).
    { destruct (fst (Pipe.isPassed _ _)) eqn:E; [|reflexivity].
      apply Pipe_isPassed_fst in E. destruct E as [_ E].
      exfalso. exact (Qclt_not_eq _ _ E eq_refl). }
    rewrite N in Fr. exact Fr.
  - destruct (Game.isFrame e) eqn:F.
    + destruct e as [r|code r| |r|r]; try discriminate.
      cbn [Game.handle]. cbn in Fe. destruct Fe as [R0 R1].
      destruct (Game.active g) eqn:A.
      * destruct (Game_update_fields r g A) as (_ & -> & _).
        rewrite Game_advance_pipes, Game_beforeScoring_pipes, map_app.
        apply Forall_app. split.
        -- rewrite Forall_forall in P. apply Forall_forall. intros q Hq.
           apply in_map_iff in Hq. destruct Hq as (p' & <- & Hp').
           apply filter_In in Hp'. destruct Hp' as [Hp' _].
           apply in_map_iff in Hp'. destruct Hp' as (p & <- & Hp).
           apply (Pipe_fits_step (of_N h)), P, Hp.
        -- destruct (Game.remIsZero _ _); cbn; constructor; [|constructor].
           rewrite H. apply Pipe_fits_fresh; assumption.
      * rewrite Game_update_inactive by exact A. exact P.
    + destruct (Game_handle_other e g St F) as [-> | ->]; exact P.
Qed.

(** X10.  On a canvas at least 390 high, with [Math.random()] drawing
    from [0, 1), every pipe of a game has its gap inside the canvas: the
    top pipe is at least 60 high, the bottom pipe starts at or above the
    floor ([bottomY <= canvasHeight]) and has a height that is not
    negative. *)
Theorem Game_pipes_fit_canvas (w h : N) (es : list Game.event) :
  (390 <= h)%N -> Forall Shape.fair es ->
  let g := Game.run es (Game.constructor w h) in
  Forall (fun p => Q2Qc 60 <= Pipe.topHeight p /\
                   Pipe.bottomY p <= Game.canvasHeight g /\
                   0 <= Pipe.bottomHeight p)
         (Game.pipes g).
Proof.
  intros Hh Fa g.
  destruct (Shape_game_reachable w h es) as (_ & H & _). fold g in H.
  rewrite H. clear H. subst g.
  assert (P0 : Forall (fun p => Q2Qc 60 <= Pipe.topHeight p /\
                                Pipe.bottomY p <= of_N h /\
                                0 <= Pipe.bottomHeight p)
                      (Game.pipes (Game.constructor w h))) by constructor.
  assert (S0 : Shape.game w h (Game.constructor w h))
    by apply (Shape_game_reachable w h []).
  revert P0 S0. generalize (Game.constructor w h).
  induction Fa as [|e es Fe Fa IH]; intros g P S; cbn [Game.run]; [exact P|].
  apply IH.
  - apply (Game_fits_handle w h e g Hh Fe S P).
  - apply Shape_game_handle, S.
Qed.

Lemma Game_pipes_fit_canvas_witness :
  let es := [Game.StartButton (Q2Qc 0.9); Game.Frame (Q2Qc 0.5);
             Game.CanvasClick; Game.Frame (Q2Qc 0.5)] in
  let g := Game.run es (Game.constructor 400 700) in
  Forall (fun p => Q2Qc 60 <= Pipe.topHeight p /\
                   Pipe.bottomY p <= Game.canvasHeight g /\
                   0 <= Pipe.bottomHeight p)
         (Game.pipes g).
Proof.
  apply (Game_pipes_fit_canvas 400 700
           [Game.StartButton (Q2Qc 0.9); Game.Frame (Q2Qc 0.5);
            Game.CanvasClick; Game.Frame (Q2Qc 0.5)]).
  - vm_compute. discriminate.
  - repeat constructor; try (unfold Qcle; vm_compute; discriminate);
      unfold Qclt; vm_compute; reflexivity.
Defined.

End ScoreAndSpawns.

(* ================================================================= *)
(** ** The spacing of the pipes *)

Section PipeSpacing.

Lemma descending_tail (d x : Qc) (xs : list Qc) :
  Stream.descending d (x :: xs) -> Stream.descending d xs.
Proof. destruct xs as [|y ys]; [trivial | intros [_ D]; exact D]. Qed.

Lemma descending_below (d x : Qc) (xs : list Qc) :
  0 <= d -> Stream.descending d (x :: xs) -> Forall (fun y => y <= x) xs.
Proof.
  intros Hd. revert x. induction xs as [|y ys IH]; intros x D; [constructor|].
  destruct D as [E D]. constructor; [qc_lra|].
  eapply Forall_impl; [|apply (IH y D)].
  intros z Hz. cbn in Hz. qc_lra.
Qed.

Lemma descending_map (d s : Qc) (xs : list Qc) :
  Stream.descending d xs ->
  Stream.descending d (map (fun x => x - s) xs).
Proof.
  induction xs as [|x xs IH]; [trivial|].
  destruct xs as [|y ys]; [trivial|].
  intros [E D]. cbn [map]. split; [qc_lra | apply IH, D].
Qed.

Lemma descending_firstn (d : Qc) (k : nat) (xs : list Qc) :
  Stream.descending d xs -> Stream.descending d (firstn k xs).
Proof.
  revert k. induction xs as [|x xs IH]; intros k D.
  - destruct k; exact I.
  - destruct k as [|k]; [exact I|]. cbn [firstn].
    destruct xs as [|y ys]; [destruct k; exact I|].
    destruct D as [E D].
    destruct k as [|k]; [exact I|].
    cbn [firstn]. split; [exact E|].
    apply (IH (S k) D).
Qed.

(** Dropping the positions that are off screen keeps a first part of a
    descending list. *)
Lemma descending_filter (d c : Qc) (xs : list Qc) :
  0 <= d -> Stream.descending d xs ->
  exists k, filter (fun x => negb (Qcltb (x + c) 0)) xs = firstn k xs.
Proof.
  intros Hd. induction xs as [|x xs IH]; intros D; [exists 0%nat; reflexivity|].
  cbn [filter]. destruct (Qcltb (x + c) 0) eqn:E; cbn [negb].
  - exists 0%nat. cbn [firstn].
    apply Qcltb_lt in E.
    pose proof (descending_below d x xs Hd D) as B.
    clear IH D. induction B as [|y ys Hy _ IHB]; [reflexivity|].
    cbn [filter].
    assert (L : Qcltb (y + c) 0 = true) by (apply Qcltb_lt; qc_lra).
    rewrite L. exact IHB.
  - destruct (IH (descending_tail d x xs D)) as [k Hk].
    exists (S k). cbn [firstn]. rewrite Hk. reflexivity.
Qed.

Lemma headIs_firstn (x : Qc) (k : nat) (xs : list Qc) :
  Stream.headIs x xs -> Stream.headIs x (firstn k xs).
Proof. destruct xs, k; cbn; trivial. Qed.

Lemma headIs_map (x s : Qc) (xs : list Qc) :
  Stream.headIs x xs -> Stream.headIs (x - s) (map (fun y => y - s) xs).
Proof. destruct xs; cbn; [trivial | intros ->; reflexivity]. Qed.

(** Putting a new position in front of a descending list whose head is
    [d] to its left. *)
Lemma descending_cons (d x : Qc) (xs : list Qc) :
  Stream.headIs (x - d) xs -> Stream.descending d xs ->
  Stream.descending d (x :: xs).
Proof. destruct xs; cbn; [trivial | intros -> D; split; [reflexivity | exact D]]. Qed.

Lemma map_x_scored (birdX : Qc) (ps : list Pipe.t) :
  map Pipe.x (map (fun p => snd (Pipe.isPassed birdX p)) ps) = map Pipe.x ps.
Proof.
  rewrite map_map. apply map_ext. intros p.
  destruct (Pipe_isPassed_geometry birdX p) as (E & _). exact E.
Qed.

Lemma map_x_survivors (ps : list Pipe.t) :
  Forall Game.standard ps ->
  map Pipe.x (filter (fun pipe => negb (Pipe.isOffScreen pipe))
                     (map Pipe.update ps))
  = filter (fun x => negb (Qcltb (x + Q2Qc 72) 0))
           (map (fun x => x - Q2Qc 1.45) (map Pipe.x ps)).
Proof.
  intros F. induction F as [|p ps [S W] _ IH]; [reflexivity|].
  assert (X : Pipe.x (Pipe.update p) = Pipe.x p - Q2Qc 1.45)
    by (cbn; rewrite S; reflexivity).
  assert (O : Pipe.isOffScreen (Pipe.update p)
              = Qcltb (Pipe.x p - Q2Qc 1.45 + Q2Qc 72) 0)
    by (unfold Pipe.isOffScreen; cbn; rewrite S, W; reflexivity).
  cbn [map filter]. rewrite O.
  destruct (Qcltb (Pipe.x p - Q2Qc 1.45 + Q2Qc 72) 0); cbn [negb map];
    rewrite ?X, IH; reflexivity.
Qed.

(** The positions after a frame of a running game. *)
Lemma Stream_update (r : Qc) (g : Game.t) :
  Game.active g = true -> Forall Game.standard (Game.pipes g) ->
  Stream.newestFirst (Game.update r g)
  = (if Game.remIsZero (Game.frameCount g + 1) (Game.pipeGap g)
     then [Game.canvasWidth g] else [])
    ++ filter (fun x => negb (Qcltb (x + Q2Qc 72) 0))
         (map (fun x => x - Q2Qc 1.45) (Stream.newestFirst g)).
Proof.
  intros A F. unfold Stream.newestFirst.
  destruct (Game_update_fields r g A) as (_ & -> & _).
  rewrite Game_advance_pipes, map_x_scored, Game_beforeScoring_pipes.
  rewrite map_app, rev_app_distr, map_x_survivors by exact F.
  rewrite <- filter_rev.
  rewrite <- (map_rev (fun x => x - Q2Qc 1.45)).
  destruct (Game.remIsZero _ _); reflexivity.
Qed.

Lemma of_Z_add (a b : Z) : Stream.of_Z (a + b) = Stream.of_Z a + Stream.of_Z b.
Proof.
  unfold Stream.of_Z. apply Qc_is_canon.
  rewrite this_plus, !this_Q2Qc, inject_Z_plus. reflexivity.
Qed.

Lemma of_Z_0 : Stream.of_Z 0 = 0.
Proof. apply Qc_is_canon. reflexivity. Qed.

Lemma of_Z_1 : Stream.of_Z 1 = 1.
Proof. apply Qc_is_canon. reflexivity. Qed.

Lemma step_435 : Q2Qc 1.45 * Stream.of_Z 299 + Q2Qc 1.45 = Q2Qc 435.
Proof. apply Qc_is_canon. vm_compute. reflexivity. Qed.

Lemma Game_mod_succ (a : Z) :
  (0 <= a)%Z ->
  if Game.remIsZero (a + 1) 300
  then (a mod 300 = 299 /\ (a + 1) mod 300 = 0)%Z
  else ((a + 1) mod 300 = a mod 300 + 1)%Z.
Proof.
  intros Ha. unfold Game.remIsZero.
  rewrite Z.rem_mod_nonneg by lia. cbn [Z.eqb negb andb].
  destruct ((a + 1) mod 300 =? 0)%Z eqn:E.
  - apply Z.eqb_eq in E. Z.div_mod_to_equations. lia.
  - apply Z.eqb_neq in E. Z.div_mod_to_equations. lia.
Qed.

(** The three facts about the positions that every event keeps. *)
Lemma Stream_step (e : Game.event) (g : Game.t) :
  Game.consistent g ->
  let inv := fun g : Game.t =>
    Stream.descending (Q2Qc 435) (Stream.newestFirst g) /\
    Stream.headIs
      (Game.canvasWidth g
       - Q2Qc 1.45 * Stream.of_Z (Game.frameCount g mod 300))
      (Stream.newestFirst g) /\
    Forall (fun x => 0 <= x + Q2Qc 72 /\ x <= Game.canvasWidth g)
           (Stream.newestFirst g) in
  inv g -> inv (Game.handle e g).
Proof.
  intros C inv (D & Hd & B). subst inv. cbv beta.
  destruct (Game.startsGame e g) eqn:St.
  - destruct (Game_handle_starts e g St) as [r ->].
    change (Stream.newestFirst (Game.startGame r g))
      with [Game.canvasWidth g].
    change (Game.frameCount (Game.startGame r g)) with 0%Z.
    change (Game.canvasWidth (Game.startGame r g)) with (Game.canvasWidth g).
    pose proof (Game.canvasWidth_nonneg g C) as W0.
    split; [exact I|]. split.
    + cbn [Stream.headIs]. change (0 mod 300)%Z with 0%Z.
      rewrite of_Z_0. ring.
    + constructor; [split; qc_lra | constructor].
  - destruct (Game.isFrame e) eqn:F.
    + destruct e as [r|code r| |r|r]; try discriminate. cbn [Game.handle].
      destruct (Game.active g) eqn:A.
      * rewrite Stream_update by (try exact A; apply (Game.pipes_standard g C)).
        destruct (Game_update_fields r g A) as (_ & _ & _ & -> & _ & -> & _).
        rewrite (Game.pipeGap_300 g C).
        pose proof (Game_mod_succ (Game.frameCount g)
                      (Game.frameCount_nonneg g C)) as M.
        pose proof (Game.canvasWidth_nonneg g C) as W0.
        set (moved := map (fun x => x - Q2Qc 1.45) (Stream.newestFirst g)).
        assert (Dm : Stream.descending (Q2Qc 435) moved)
          by (apply descending_map, D).
        assert (Hm : Stream.headIs
                  (Game.canvasWidth g
                   - Q2Qc 1.45 * Stream.of_Z (Game.frameCount g mod 300)
                   - Q2Qc 1.45) moved)
          by (apply headIs_map, Hd).
        assert (Bm : Forall (fun x => x <= Game.canvasWidth g) moved).
        { unfold moved. apply Forall_forall. intros x Hx.
          apply in_map_iff in Hx. destruct Hx as (y & <- & Hy).
          rewrite Forall_forall in B. destruct (B y Hy) as [_ Y]. qc_lra. }
        destruct (descending_filter (Q2Qc 435) (Q2Qc 72) moved) as [k Hk];
          [unfold Qcle; vm_compute; discriminate | exact Dm |].
        assert (Bk : Forall (fun x => 0 <= x + Q2Qc 72 /\ x <= Game.canvasWidth g)
                       (filter (fun x => negb (Qcltb (x + Q2Qc 72) 0)) moved)).
        { apply Forall_forall. intros x Hx. apply filter_In in Hx.
          destruct Hx as [Hx K]. apply negb_true_iff, Qcltb_ge in K.
          rewrite Forall_forall in Bm. split; [exact K | apply Bm, Hx]. }
        rewrite Hk in *.
        destruct (Game.remIsZero (Game.frameCount g + 1) 300).
        -- destruct M as [M1 M2]. rewrite M2. cbn [app].
           assert (E0 : Game.canvasWidth g - Q2Qc 1.45 * Stream.of_Z 0
                        = Game.canvasWidth g)
             by (rewrite of_Z_0; ring).
           split; [|split].
           ++ apply descending_cons; [|apply descending_firstn, Dm].
              apply headIs_firstn. rewrite M1 in Hm.
              replace (Game.canvasWidth g - Q2Qc 435)
                with (Game.canvasWidth g - Q2Qc 1.45 * Stream.of_Z 299
                      - Q2Qc 1.45); [exact Hm|].
              rewrite <- step_435. ring.
           ++ cbn. symmetry. exact E0.
           ++ constructor; [split; qc_lra | exact Bk].
        -- rewrite M. cbn [app].
           split; [apply descending_firstn, Dm|]. split; [|exact Bk].
           apply headIs_firstn. rewrite of_Z_add.
           replace (Game.canvasWidth g
                    - Q2Qc 1.45 * (Stream.of_Z (Game.frameCount g mod 300)
                                   + Stream.of_Z 1))
             with (Game.canvasWidth g
                   - Q2Qc 1.45 * Stream.of_Z (Game.frameCount g mod 300)
                   - Q2Qc 1.45); [exact Hm|].
           rewrite of_Z_1. ring.
      * rewrite Game_update_inactive by exact A. auto.
    + destruct (Game_handle_other e g St F) as [-> | ->]; auto.
Qed.

End PipeSpacing.

(* ================================================================= *)
(** ** What is drawn *)

Section Drawing.

Lemma Canvas_fills_bird (style : string) (b : Bird.t) :
  Canvas.fills style (Canvas.drawBird b)
  = [ ("#ffcc00"%string, Bird.getBounds b);
      ("#fff"%string,
       Rect.mk (Bird.x b + Q2Qc 20) (Bird.y b + Q2Qc 4) (Q2Qc 6) (Q2Qc 6));
      ("#000"%string,
       Rect.mk (Bird.x b + Q2Qc 22) (Bird.y b + Q2Qc 6) (Q2Qc 2) (Q2Qc 2)) ].
Proof. reflexivity. Qed.

Lemma Canvas_fills_pipes (style : string) (ps : list Pipe.t) (b : Bird.t) :
  Canvas.fills style (flat_map Canvas.drawPipe ps ++ Canvas.drawBird b)
  = flat_map (fun p => map (pair "#228B22"%string) (Pipe.getBounds p)) ps
    ++ Canvas.fills style (Canvas.drawBird b).
Proof.
  revert style. induction ps as [|p ps IH]; intros style; [reflexivity|].
  cbn [flat_map app Canvas.drawPipe Canvas.fills Pipe.getBounds map].
  rewrite IH, !Canvas_fills_bird. reflexivity.
Qed.

(** X12.  What [render] paints.  It clears the canvas, fills it with the
    sky colour, then, only if the game is running, fills for each
    pipe, oldest first, exactly the two boxes that [checkCollisions]
    tests, and last the bird: its body is its collision box, then the
    eye and the pupil.  In a state the game reaches after a game over no
    pipe is painted, although the pipes are still in the state. *)
Theorem Canvas_render_paints (g : Game.t) (style : string) :
  hd_error (Canvas.render g)
    = Some (Canvas.ClearRect 0 0 (Game.canvasWidth g) (Game.canvasHeight g)) /\
  Canvas.fills style (Canvas.render g)
    = ("#70c5ce"%string,
       Rect.mk 0 0 (Game.canvasWidth g) (Game.canvasHeight g))
      :: (if Game.isRunning g
          then flat_map
                 (fun p => map (pair "#228B22"%string) (Pipe.getBounds p))
                 (Game.pipes g)
          else [])
      ++ [ ("#ffcc00"%string, Bird.getBounds (Game.bird g));
           ("#fff"%string,
            Rect.mk (Bird.x (Game.bird g) + Q2Qc 20)
                    (Bird.y (Game.bird g) + Q2Qc 4) (Q2Qc 6) (Q2Qc 6));
           ("#000"%string,
            Rect.mk (Bird.x (Game.bird g) + Q2Qc 22)
                    (Bird.y (Game.bird g) + Q2Qc 6) (Q2Qc 2) (Q2Qc 2)) ] /\
  (forall w h es,
     g = Game.run es (Game.constructor w h) ->
     Game.isGameOver g = true ->
     length (Canvas.fills style (Canvas.render g)) = 4%nat).
Proof.
  assert (E : Canvas.fills style (Canvas.render g)
    = ("#70c5ce"%string,
       Rect.mk 0 0 (Game.canvasWidth g) (Game.canvasHeight g))
      :: (if Game.isRunning g
          then flat_map
                 (fun p => map (pair "#228B22"%string) (Pipe.getBounds p))
                 (Game.pipes g)
          else [])
      ++ Canvas.fills "#70c5ce" (Canvas.drawBird (Game.bird g))).
  { unfold Canvas.render. cbn [app Canvas.fills]. f_equal.
    destruct (Game.isRunning g).
    - apply Canvas_fills_pipes.
    - reflexivity. }
  split; [reflexivity|]. split.
  - rewrite E, Canvas_fills_bird. reflexivity.
  - intros w h es Hg Over. rewrite E, Canvas_fills_bird.
    pose proof (Game.flags_exclusive g) as X.
    rewrite Hg in X at 1.
    specialize (X (Game_reachable_consistent w h es)).
    destruct (Game.isRunning g); [|reflexivity].
    rewrite X in Over by reflexivity. discriminate.
Qed.

End Drawing.

(* ================================================================= *)
(** ** The page follows the game *)

Section PageProperties.

Lemma App_scorePipes_spec (birdX : Qc) (ps : list Pipe.t) (s : Z)
    (text : string) :
  let n := Z.of_nat
             (length (filter (fun p => fst (Pipe.isPassed birdX p)) ps)) in
  App.scorePipes birdX ps s text
  = (map (fun p => snd (Pipe.isPassed birdX p)) ps, (s + n)%Z,
     if (0 <? n)%Z then App.scoreLabel (s + n) else text).
Proof.
  revert s text. induction ps as [|p ps IH]; intros s text.
  - cbn. rewrite Z.add_0_r. reflexivity.
  - cbn [App.scorePipes map filter].
    destruct (Pipe.isPassed birdX p) as [fired p'] eqn:E. cbn [fst snd].
    rewrite IH. cbv zeta.
    destruct fired; cbn [length]; [|reflexivity].
    generalize (length (filter (fun q => fst (Pipe.isPassed birdX q)) ps)).
    intros k. rewrite Nat2Z.inj_succ.
    replace (0 <? Z.succ (Z.of_nat k))%Z with true
      by (symmetry; apply Z.ltb_lt; lia).
    replace (s + 1 + Z.of_nat k)%Z with (s + Z.succ (Z.of_nat k))%Z by lia.
    destruct (0 <? Z.of_nat k)%Z eqn:K; [reflexivity|].
    apply Z.ltb_ge in K.
    replace (Z.of_nat k) with 0%Z by lia. reflexivity.
Qed.

Lemma App_startGame_game (r : Qc) (a : App.t) :
  App.game (App.startGame r a) = Game.startGame r (App.game a).
Proof. reflexivity. Qed.

Lemma App_update_inactive (r : Qc) (a : App.t) :
  Game.active (App.game a) = false -> App.update r a = a.
Proof.
  unfold Game.active, App.update. cbv zeta.
  destruct (negb (Game.isRunning (App.game a)) || Game.isGameOver (App.game a));
    [reflexivity | discriminate].
Qed.

(** A frame of a running game, on the page. *)
Lemma App_update_active (r : Qc) (a : App.t) :
  Game.active (App.game a) = true ->
  let g' := Game.advance r (App.game a) in
  let text := if (0 <? Z.of_nat (length (Game.firedBy r (App.game a))))%Z
              then App.scoreLabel (Game.score g') else App.scoreText a in
  App.update r a
  = if Game.checkCollisions g'
    then App.gameOver (App.mk g' (App.menu a) text (App.scoreShown a))
    else App.mk g' (App.menu a) text (App.scoreShown a).
Proof.
  intros A. cbv zeta.
  pose proof A as A'. unfold Game.active in A'.
  unfold App.update. cbv zeta.
  destruct (negb (Game.isRunning (App.game a)) || Game.isGameOver (App.game a));
    [discriminate|].
  rewrite App_scorePipes_spec. cbv zeta.
  rewrite Game_firedBy_active by exact A.
  rewrite Game_beforeScoring_bird, Bird_update_x.
  assert (G : Game.set_score
      (Game.score (Game.beforeScoring r (App.game a)) +
       Z.of_nat (length (filter
         (fun p => fst (Pipe.isPassed (Bird.x (Game.bird (App.game a))) p))
         (Game.pipes (Game.beforeScoring r (App.game a))))))
      (Game.set_pipes
         (map (fun p => snd (Pipe.isPassed (Bird.x (Game.bird (App.game a))) p))
              (Game.pipes (Game.beforeScoring r (App.game a))))
         (Game.beforeScoring r (App.game a)))
    = Game.advance r (App.game a)).
  { rewrite Game_advance_unfold. unfold Game.checkScoring.
    rewrite Game_scorePipes_spec, Game_beforeScoring_bird, Bird_update_x.
    reflexivity. }
  rewrite G.
  assert (S : (Game.score (Game.beforeScoring r (App.game a)) +
       Z.of_nat (length (filter
         (fun p => fst (Pipe.isPassed (Bird.x (Game.bird (App.game a))) p))
         (Game.pipes (Game.beforeScoring r (App.game a))))))%Z
    = Game.score (Game.advance r (App.game a))).
  { rewrite <- G. reflexivity. }
  rewrite S. reflexivity.
Qed.

(** The game of the page is the game. *)
Lemma App_handle_game (e : Game.event) (a : App.t) :
  App.game (App.handle e a) = Game.handle e (App.game a).
Proof.
  destruct e as [r|code r| |r|r]; cbn [App.handle Game.handle].
  - destruct (Game.active (App.game a)) eqn:A.
    + rewrite App_update_active, Game_update_active by exact A. cbv zeta.
      destruct (Game.checkCollisions (Game.advance r (App.game a))); reflexivity.
    + rewrite App_update_inactive, Game_update_inactive by exact A. reflexivity.
  - unfold App.keydown, Game.keydown. cbv zeta.
    destruct (Game.isSpaceOrEnter code && _).
    + destruct (Game.isGameOver (App.game a)); reflexivity.
    + destruct (Game.isSpace code && Game.isRunning (App.game a) && _); reflexivity.
  - unfold App.click, Game.click.
    destruct (Game.isRunning (App.game a) && _); reflexivity.
  - reflexivity.
  - reflexivity.
Qed.

Lemma App_run_game (es : list Game.event) (a : App.t) :
  App.game (App.run es a) = Game.run es (App.game a).
Proof.
  revert a. induction es as [|e es IH]; intros a; [reflexivity|].
  cbn [App.run Game.run]. rewrite IH, App_handle_game. reflexivity.
Qed.

(** What the page shows for a state of the game. *)
Lemma App_startGame_page (r : Qc) (a : App.t) :
  let a' := App.startGame r a in
  Menu.menuDisplay (App.menu a') = "none"%string /\
  Menu.gameOverDisplay (App.menu a') = "none"%string /\
  Menu.finalScore (App.menu a') = Menu.finalScore (App.menu a) /\
  App.scoreShown a' = "block"%string /\
  App.scoreText a' = App.scoreLabel 0.
Proof. repeat split. Qed.

Lemma App_page_step (e : Game.event) (a : App.t) :
  (Game.isRunning (App.game a) = true -> Game.isGameOver (App.game a) = false) ->
  let inv := fun a : App.t =>
    Menu.menuDisplay (App.menu a)
      = (if Game.started (App.game a) then "none" else "flex")%string /\
    Menu.gameOverDisplay (App.menu a)
      = (if Game.isGameOver (App.game a) then "flex" else "none")%string /\
    (Game.started (App.game a) = true ->
     App.scoreShown a
       = (if Game.isRunning (App.game a) then "block" else "none")%string) /\
    (Game.started (App.game a) = true ->
     App.scoreText a = App.scoreLabel (Game.score (App.game a))) /\
    (Game.isGameOver (App.game a) = true ->
     match Menu.finalScore (App.menu a) with
     | Some t => t = ("Your Score: "
                      ++ Menu.number (Game.score (App.game a)))%string
     | None => True
     end) in
  inv a -> inv (App.handle e a).
Proof.
  intros X inv (I1 & I2 & I3 & I4 & I5). subst inv. cbv beta.
  assert (St : forall r m t s,
    let a' := App.startGame r (App.mk (App.game a) m t s) in
    Menu.menuDisplay (App.menu a')
      = (if Game.started (App.game a') then "none" else "flex")%string /\
    Menu.gameOverDisplay (App.menu a')
      = (if Game.isGameOver (App.game a') then "flex" else "none")%string /\
    (Game.started (App.game a') = true ->
     App.scoreShown a'
       = (if Game.isRunning (App.game a') then "block" else "none")%string) /\
    (Game.started (App.game a') = true ->
     App.scoreText a' = App.scoreLabel (Game.score (App.game a'))) /\
    (Game.isGameOver (App.game a') = true ->
     match Menu.finalScore (App.menu a') with
     | Some t => t = ("Your Score: "
                      ++ Menu.number (Game.score (App.game a')))%string
     | None => True
     end)).
  { intros r m t s. cbv zeta. cbn. repeat split; discriminate. }
  assert (Fl : forall b,
    b = App.flap a ->
    Menu.menuDisplay (App.menu b)
      = (if Game.started (App.game b) then "none" else "flex")%string /\
    Menu.gameOverDisplay (App.menu b)
      = (if Game.isGameOver (App.game b) then "flex" else "none")%string /\
    (Game.started (App.game b) = true ->
     App.scoreShown b
       = (if Game.isRunning (App.game b) then "block" else "none")%string) /\
    (Game.started (App.game b) = true ->
     App.scoreText b = App.scoreLabel (Game.score (App.game b))) /\
    (Game.isGameOver (App.game b) = true ->
     match Menu.finalScore (App.menu b) with
     | Some t => t = ("Your Score: "
                      ++ Menu.number (Game.score (App.game b)))%string
     | None => True
     end)).
  { intros b ->. cbn. auto. }
  destruct e as [r|code r| |r|r]; cbn [App.handle].
  - destruct (Game.active (App.game a)) eqn:A.
    + rewrite App_update_active by exact A. cbv zeta.
      destruct (Game_advance_rest r (App.game a)) as (_ & _ & _ & _ & R & O).
      pose proof (Game_advance_score r (App.game a) A) as Sc.
      apply Game_active_iff in A. destruct A as [Ar Ao].
      assert (Sg : Game.started (App.game a) = true)
        by (unfold Game.started; rewrite Ar; reflexivity).
      assert (T : (if (0 <? Z.of_nat (length (Game.firedBy r (App.game a))))%Z
                   then App.scoreLabel (Game.score (Game.advance r (App.game a)))
                   else App.scoreText a)
                  = App.scoreLabel (Game.score (Game.advance r (App.game a)))).
      { destruct (0 <? Z.of_nat (length (Game.firedBy r (App.game a))))%Z eqn:K;
          [reflexivity|].
        apply Z.ltb_ge in K. rewrite (I4 Sg), Sc. f_equal. lia. }
      rewrite T.
      destruct (Game.checkCollisions (Game.advance r (App.game a))).
      * unfold App.gameOver, Menu.showGameOver. cbn.
        repeat split; try discriminate; try reflexivity.
        intros _. destruct (Menu.finalScore (App.menu a)) eqn:FS; cbn;
          [reflexivity | rewrite FS; exact I].
      * cbn. unfold Game.started. rewrite R, O, Ar, Ao. cbn.
        rewrite Sg in I1. rewrite Ao in I2. specialize (I3 Sg).
        rewrite Ar in I3.
        repeat split; try assumption; try discriminate; try reflexivity.
        intros _. exact I3.
    + rewrite App_update_inactive by exact A. auto 10.
  - unfold App.keydown. cbv zeta.
    destruct (Game.isSpaceOrEnter code && _).
    + destruct (Game.isGameOver (App.game a)); apply St.
    + destruct (Game.isSpace code && Game.isRunning (App.game a) && _);
        [apply Fl; reflexivity | auto 10].
  - unfold App.click.
    destruct (Game.isRunning (App.game a) && _);
      [apply Fl; reflexivity | auto 10].
  - apply St.
  - apply St.
Qed.

Lemma App_page_reachable (w h : N) (page : Menu.t) (text shown : string)
    (es : list Game.event) :
  let a := App.run es (App.constructor w h page text shown) in
  App.game a = Game.run es (Game.constructor w h) /\
  Menu.menuDisplay (App.menu a)
    = (if Game.started (App.game a) then "none" else "flex")%string /\
  Menu.gameOverDisplay (App.menu a)
    = (if Game.isGameOver (App.game a) then "flex" else "none")%string /\
  (Game.started (App.game a) = true ->
   App.scoreShown a
     = (if Game.isRunning (App.game a) then "block" else "none")%string) /\
  (Game.started (App.game a) = true ->
   App.scoreText a = App.scoreLabel (Game.score (App.game a))) /\
  (Game.isGameOver (App.game a) = true ->
   match Menu.finalScore (App.menu a) with
   | Some t => t = ("Your Score: "
                    ++ Menu.number (Game.score (App.game a)))%string
   | None => True
   end).
Proof.
  intros a. split; [apply App_run_game|]. subst a.
  assert (G0 : App.game (App.constructor w h page text shown)
               = Game.run [] (Game.constructor w h)) by reflexivity.
  assert (I0 :
    Menu.menuDisplay (App.menu (App.constructor w h page text shown))
      = (if Game.started (App.game (App.constructor w h page text shown))
         then "none" else "flex")%string /\
    Menu.gameOverDisplay (App.menu (App.constructor w h page text shown))
      = (if Game.isGameOver (App.game (App.constructor w h page text shown))
         then "flex" else "none")%string /\
    (Game.started (App.game (App.constructor w h page text shown)) = true ->
     App.scoreShown (App.constructor w h page text shown)
       = (if Game.isRunning (App.game (App.constructor w h page text shown))
          then "block" else "none")%string) /\
    (Game.started (App.game (App.constructor w h page text shown)) = true ->
     App.scoreText (App.constructor w h page text shown)
     = App.scoreLabel
         (Game.score (App.game (App.constructor w h page text shown)))) /\
    (Game.isGameOver (App.game (App.constructor w h page text shown)) = true ->
     match Menu.finalScore (App.menu (App.constructor w h page text shown)) with
     | Some t => t = ("Your Score: "
         ++ Menu.number
              (Game.score (App.game (App.constructor w h page text shown))))%string
     | None => True
     end)) by (cbn; repeat split; discriminate).
  revert G0 I0. generalize (@nil Game.event) as es0.
  generalize (App.constructor w h page text shown).
  induction es as [|e es IH]; intros a es0 G I; cbn [App.run]; [exact I|].
  apply (IH (App.handle e a) (es0 ++ [e])).
  - rewrite App_handle_game, G.
    clear. revert e. generalize (Game.constructor w h).
    induction es0 as [|e0 es0 IH0]; intros g e; cbn; [reflexivity | apply IH0].
  - apply App_page_step; [|exact I].
    rewrite G. apply Game.flags_exclusive, Game_reachable_consistent.
Qed.

(** X13.  The overlays never overlap.  In every state of the page the
    main menu is shown ([display] is ['flex']) exactly while no game has
    been started, the game over screen exactly while the game is over,
    and, once a game has been started, the score display exactly while
    the game is running; whatever is not shown has [display] ['none']. *)
Theorem App_overlays_follow_state (w h : N) (page : Menu.t)
    (text shown : string) (es : list Game.event) :
  let a := App.run es (App.constructor w h page text shown) in
  let g := Game.run es (Game.constructor w h) in
  App.game a = g /\
  Menu.menuDisplay (App.menu a)
    = (if Game.started g then "none" else "flex")%string /\
  Menu.gameOverDisplay (App.menu a)
    = (if Game.isGameOver g then "flex" else "none")%string /\
  (Game.started g = true ->
   App.scoreShown a = (if Game.isRunning g then "block" else "none")%string).
Proof.
  intros a g.
  destruct (App_page_reachable w h page text shown es)
    as (G & I1 & I2 & I3 & _).
  fold a in G, I1, I2, I3. fold g in G. rewrite G in *.
  auto.
Qed.

(** X14.  The texts are in step with the score.  Once a game has been
    started the score display reads ["Score: "] followed by the current
    score, after every event; and while the game is over the element
    [#final-score], if the page has one, reads ["Your Score: "] followed
    by that score. *)
Theorem App_texts_follow_score (w h : N) (page : Menu.t)
    (text shown : string) (es : list Game.event) :
  let a := App.run es (App.constructor w h page text shown) in
  let g := Game.run es (Game.constructor w h) in
  (Game.started g = true ->
   App.scoreText a = ("Score: " ++ Menu.number (Game.score g))%string) /\
  (Game.isGameOver g = true ->
   match Menu.finalScore (App.menu a) with
   | Some t => t = ("Your Score: " ++ Menu.number (Game.score g))%string
   | None => True
   end).
Proof.
  intros a g.
  destruct (App_page_reachable w h page text shown es)
    as (G & _ & _ & _ & I4 & I5).
  fold a in G, I4, I5. fold g in G. rewrite G in *.
  split; assumption.
Qed.

(** The game played by [pilot] until the first pipe is passed: the
    display reads "Score: 1". *)
Example App_texts_scenario :
  let page := Menu.mk "" "" (Some ""%string) in
  let g1 := Game.startGame (Q2Qc 0.5) (Game.constructor 400 700) in
  let es := Game.StartButton (Q2Qc 0.5) :: Game.pilot (Q2Qc 0.5) 300 g1 in
  let a := App.run es (App.constructor 400 700 page "" "") in
  App.scoreText a = "Score: 1"%string /\
  App.scoreShown a = "block"%string /\
  Menu.menuDisplay (App.menu a) = "none"%string.
Proof. vm_compute. repeat split. Qed.

End PageProperties.

(* ================================================================= *)
(** ** One point at a time *)

Section OnePointAtATime.

(** After the scoring loop every pipe is passed or still ahead of the
    bird's [x]. *)
Lemma Pipe_scored_ahead (birdX : Qc) (p : Pipe.t) :
  let p' := snd (Pipe.isPassed birdX p) in
  Pipe.passed p' = false -> birdX <= Pipe.x p' + Pipe.width p'.
Proof.
  cbv zeta. rewrite Pipe_isPassed_passed.
  destruct (Pipe_isPassed_geometry birdX p) as (-> & -> & _).
  intros N. apply orb_false_iff in N. destruct N as [NP NF].
  apply Qcnot_lt_le. intros C.
  assert (T : fst (Pipe.isPassed birdX p) = true)
    by (apply Pipe_isPassed_fst; split; assumption).
  congruence.
Qed.

Lemma Game_ahead_handle (e : Game.event) (g : Game.t) :
  Game.consistent g ->
  let ahead := fun p : Pipe.t =>
    Pipe.passed p = false -> Q2Qc 50 <= Pipe.x p + Pipe.width p in
  Forall ahead (Game.pipes g) -> Forall ahead (Game.pipes (Game.handle e g)).
Proof.
  intros C ahead P.
  destruct (Game.startsGame e g) eqn:St.
  - destruct (Game_handle_starts e g St) as [r ->]. cbn.
    constructor; [|constructor]. intros _. cbn.
    pose proof (Game.canvasWidth_nonneg g C). qc_lra.
  - destruct (Game.isFrame e) eqn:F.
    + destruct e as [r|code r| |r|r]; try discriminate. cbn [Game.handle].
      destruct (Game.active g) eqn:A.
      * destruct (Game_update_fields r g A) as (_ & -> & _).
        rewrite Game_advance_pipes, (Game.bird_x g C).
        apply Forall_forall. intros q Hq.
        apply in_map_iff in Hq. destruct Hq as (p & <- & _).
        exact (Pipe_scored_ahead (Q2Qc 50) p).
      * rewrite Game_update_inactive by exact A. exact P.
    + destruct (Game_handle_other e g St F) as [-> | ->]; exact P.
Qed.

Lemma descending_apart (d x : Qc) (xs : list Qc) :
  0 <= d -> Stream.descending d (x :: xs) -> Forall (fun y => y <= x - d) xs.
Proof.
  intros Hd. revert x. induction xs as [|y ys IH]; intros x D; [constructor|].
  destruct D as [E D]. constructor; [qc_lra|].
  eapply Forall_impl; [|apply (IH y D)].
  intros z Hz. cbn in Hz. qc_lra.
Qed.

(** Of positions 435 apart at most one is in a window 1.45 wide. *)
Lemma descending_window (lo : Qc) (xs : list Qc) :
  Stream.descending (Q2Qc 435) xs ->
  (length (filter (fun x => negb (Qcltb x lo) && Qcltb x (lo + Q2Qc 1.45)) xs)
   <= 1)%nat.
Proof.
  induction xs as [|x xs IH]; intros D; [cbn; lia|].
  cbn [filter].
  destruct (negb (Qcltb x lo) && Qcltb x (lo + Q2Qc 1.45)) eqn:W.
  - apply andb_true_iff in W. destruct W as [W1 W2].
    apply negb_true_iff, Qcltb_ge in W1. apply Qcltb_lt in W2.
    assert (Hd : 0 <= Q2Qc 435) by (unfold Qcle; vm_compute; discriminate).
    pose proof (descending_apart _ x xs Hd D) as Ap.
    assert (E : filter (fun y => negb (Qcltb y lo) && Qcltb y (lo + Q2Qc 1.45)) xs
                = []).
    { clear IH D. induction Ap as [|y ys Hy _ IHA]; [reflexivity|].
      cbn [filter].
      assert (L : Qcltb y lo = true) by (apply Qcltb_lt; qc_lra).
      rewrite L. cbn. exact IHA. }
    rewrite E. cbn. lia.
  - apply IH. apply (descending_tail _ x xs D).
Qed.

Lemma filter_length_implies {A : Type} (f g : A -> bool) (l : list A) :
  (forall a, In a l -> f a = true -> g a = true) ->
  (length (filter f l) <= length (filter g l))%nat.
Proof.
  induction l as [|a l IH]; intros H; [cbn; lia|].
  cbn [filter].
  assert (IH' : (length (filter f l) <= length (filter g l))%nat)
    by (apply IH; intros b Hb; apply H; right; exact Hb).
  destruct (f a) eqn:Fa.
  - rewrite (H a (or_introl eq_refl) Fa). cbn. lia.
  - destruct (g a); cbn; lia.
Qed.

(** X15.  One point at a time.  In every state the game reaches, a frame
    makes [isPassed] return true for at most one pipe, so the score goes
    up by at most 1 a frame: the pipes are 435 apart and a pipe passes
    the bird within one step of 1.45. *)
Theorem Game_one_point_per_frame (w h : N) (es : list Game.event) (r : Qc) :
  let g := Game.run es (Game.constructor w h) in
  (length (Game.firedBy r g) <= 1)%nat /\
  (Game.score g <= Game.score (Game.update r g) <= Game.score g + 1)%Z.
Proof.
  intros g.
  pose proof (Game_reachable_consistent w h es) as C. fold g in C.
  assert (Ah : Forall (fun p => Pipe.passed p = false ->
                                Q2Qc 50 <= Pipe.x p + Pipe.width p)
                      (Game.pipes g)).
  { subst g. clear C.
    pose proof (Game_constructor_consistent w h) as C0.
    assert (P0 : Forall (fun p => Pipe.passed p = false ->
                                  Q2Qc 50 <= Pipe.x p + Pipe.width p)
                        (Game.pipes (Game.constructor w h))) by constructor.
    revert P0 C0. generalize (Game.constructor w h).
    induction es as [|e es IH]; intros g P C; cbn [Game.run]; [exact P|].
    apply IH; [apply (Game_ahead_handle e g C P)
              | apply Game_handle_consistent, C]. }
  assert (One : (length (Game.firedBy r g) <= 1)%nat).
  { destruct (Game.active g) eqn:A;
      [|unfold Game.firedBy; rewrite A; cbn; lia].
    assert (D : Stream.descending (Q2Qc 435)
                  (rev (map Pipe.x (Game.pipes (Game.beforeScoring r g))))).
    { assert (K : Stream.descending (Q2Qc 435)
                    (Stream.newestFirst (Game.update r g))).
      { assert (K0 :
          Stream.descending (Q2Qc 435)
            (Stream.newestFirst (Game.constructor w h)) /\
          Stream.headIs
            (Game.canvasWidth (Game.constructor w h)
             - Q2Qc 1.45
               * Stream.of_Z (Game.frameCount (Game.constructor w h) mod 300))
            (Stream.newestFirst (Game.constructor w h)) /\
          Forall (fun x => 0 <= x + Q2Qc 72
                           /\ x <= Game.canvasWidth (Game.constructor w h))
                 (Stream.newestFirst (Game.constructor w h)))
          by (cbn; repeat split; constructor).
        pose proof (Game_constructor_consistent w h) as C0.
        change (Game.update r g) with (Game.handle (Game.Frame r) g).
        subst g. clear C Ah A.
        revert K0 C0. generalize (Game.constructor w h).
        induction es as [|e es IH]; intros g K C; cbn [Game.run].
        - apply (Stream_step (Game.Frame r) g C K).
        - apply IH; [apply (Stream_step e g C K)
                    | apply Game_handle_consistent, C]. }
      unfold Stream.newestFirst in K.
      destruct (Game_update_fields r g A) as (_ & Pu & _).
      rewrite Pu, Game_advance_pipes, map_x_scored in K. exact K. }
    rewrite Game_firedBy_active by exact A.
    etransitivity;
      [|apply (descending_window (Q2Qc (-2345 # 100)) _ D)].
    rewrite filter_rev, length_rev.
    set (win := fun x : Qc => negb (Qcltb x (Q2Qc (-2345 # 100)))
                  && Qcltb x (Q2Qc (-2345 # 100) + Q2Qc 1.45)).
    assert (M : length (filter win
                  (map Pipe.x (Game.pipes (Game.beforeScoring r g))))
                = length (filter (fun p => win (Pipe.x p))
                            (Game.pipes (Game.beforeScoring r g)))).
    { generalize (Game.pipes (Game.beforeScoring r g)). intros l.
      induction l as [|p l IHl]; [reflexivity|].
      cbn [map filter]. destruct (win (Pipe.x p)); cbn [length]; lia. }
    rewrite M. apply filter_length_implies.
    intros p Hp Fp. apply Pipe_isPassed_fst in Fp. destruct Fp as [Np Bp].
    rewrite (Game.bird_x g C) in Bp.
    rewrite Game_beforeScoring_pipes in Hp.
    apply in_app_iff in Hp. destruct Hp as [Hp | Hp].
    - apply filter_In in Hp. destruct Hp as [Hp _].
      apply in_map_iff in Hp. destruct Hp as (p0 & <- & Hp0).
      rewrite Forall_forall in Ah. specialize (Ah p0 Hp0 Np).
      pose proof (Game.pipes_standard g C) as Sd.
      rewrite Forall_forall in Sd. destruct (Sd p0 Hp0) as [S0 W0].
      cbn in Bp. rewrite S0, W0 in *.
      unfold win. apply andb_true_iff. split.
      + apply negb_true_iff, Qcltb_ge. cbn. rewrite S0. qc_lra.
      + apply Qcltb_lt. cbn. rewrite S0. qc_lra.
    - exfalso. destruct (Game.remIsZero _ _); [|destruct Hp].
      destruct Hp as [<- | []]. cbn in Bp.
      pose proof (Game.canvasWidth_nonneg g C). qc_lra. }
  split; [exact One|].
  destruct (Game.active g) eqn:A.
  - rewrite Game_update_score by exact A. lia.
  - rewrite Game_update_inactive by exact A. lia.
Qed.

End OnePointAtATime.
